(** * youtube-music: header resolver, CSP filter, plugin loader, song-info provider

    A shallow embedding of the parts of [index.js] and of the song-info
    provider (the file exporting [registerCallback], [setupSongInfo],
    [getImage] and [cleanupName]) that carry the behaviour described in the
    design document, and the properties of that behaviour.

    Conventions of the embedding.
    - A JavaScript string is a [string]; its characters stand for UTF-16 code
      units.  The string methods used by the program ([endsWith], [includes],
      [lastIndexOf], [slice]) work code unit by code unit, and every pattern
      the program passes to them is plain ASCII.
    - A JavaScript value that can reach the program through [JSON.parse] or a
      page script is a [jsval].
    - A thrown exception or a rejected promise is the [Err] case of [result].
    - Mutable objects shared between calls ([songInfo], [callbacks], the
      outgoing channel of the window) are fields of a state that is passed
      along explicitly. *)

From Stdlib Require Import ZArith Ascii String.
From stdpp Require Import base list strings gmap fin_maps.

Local Open Scope Z_scope.

(** ** Results of computations that may throw *)

Inductive error :=
  | SyntaxError   (* JSON.parse on a malformed text *)
  | TypeError     (* calling a method that the receiver does not have *)
  | FetchError    (* the promise returned by fetch is rejected *)
  | ScriptError   (* the promise returned by executeJavaScript is rejected *)
  | PluginError.  (* a plugin entry function threw *)

Inductive result (A : Type) :=
  | Ok (a : A)
  | Err (e : error).
Arguments Ok {A} a.
Arguments Err {A} e.

(** Sequencing: an error ends the computation, as a [throw] or a rejected
    [await] ends the enclosing function body. *)
Global Instance result_ret : MRet result := λ A a, Ok a.
Global Instance result_bind : MBind result := λ A B k r,
  match r with
  | Ok a => k a
  | Err e => Err e
  end.

Definition is_ok {A} (r : result A) : bool :=
  match r with Ok _ => true | Err _ => false end.

(** ** JavaScript strings *)

Module JsString.

Definition units (s : string) : list ascii := list_ascii_of_string s.
Definition of_units (l : list ascii) : string := string_of_list_ascii l.

Definition length (s : string) : Z := Z.of_nat (List.length (units s)).

(** [matches_at l p k]: the code units of [p] occur in [l] at offset [k]. *)
Definition matches_at (l p : list ascii) (k : nat) : bool :=
  bool_decide (take (List.length p) (drop k l) = p).

(** [s.endsWith(suf)]: with [start = s.length - suf.length], false when
    [start < 0], else whether the code units from [start] on equal [suf]. *)
Definition endsWith (s suf : string) : bool :=
  let l := units s in
  let p := units suf in
  (List.length p <=? List.length l)%nat
  && bool_decide (drop (List.length l - List.length p) l = p).

(** [s.includes(pat)]: some offset at which [pat] occurs. *)
Definition includes (s pat : string) : bool :=
  existsb (matches_at (units s) (units pat)) (seq 0 (S (List.length (units s)))).

(** [s.lastIndexOf(pat)]: the greatest offset at which [pat] occurs, or -1. *)
Definition lastIndexOf (s pat : string) : Z :=
  match List.find (matches_at (units s) (units pat))
                  (reverse (seq 0 (S (List.length (units s))))) with
  | Some k => Z.of_nat k
  | None => -1
  end.

(** [s.slice(0, e)]: a negative [e] counts from the end; the bound is
    clamped to [0 .. s.length]. *)
Definition slice0 (s : string) (e : Z) : string :=
  let len := length s in
  let to := if e <? 0 then Z.max (len + e) 0 else Z.min e len in
  of_units (take (Z.to_nat to) (units s)).

End JsString.

(** ** JavaScript values *)

#[warnings="-register-all"]
Inductive jsval :=
  | VUndefined
  | VNull
  | VBool (b : bool)
  | VNum (n : Z)
  | VStr (s : string)
  | VArr (elems : list jsval)
  | VObj (fields : list (string * jsval)).

(** ToBoolean.  [undefined], [null], [false], [0] and the empty string are
    falsy; arrays and objects are truthy. *)
Definition truthy (v : jsval) : bool :=
  match v with
  | VUndefined | VNull => false
  | VBool b => b
  | VNum n => negb (n =? 0)
  | VStr s => negb (bool_decide (s = ""))
  | VArr _ | VObj _ => true
  end.

Definition nullish (v : jsval) : bool :=
  match v with
  | VUndefined | VNull => true
  | _ => false
  end.

(** ** Name cleanup *)

Definition suffixesToRemove : list string :=
  [ " - Topic";
    "VEVO";
    " (Performance Video)";
    " (Official Music Video)";
    " (Official Video)";
    " (Clip officiel)" ].

(** The [for (const suffix of suffixes)] loop of [cleanupName] on a string
    receiver: the first suffix the name ends with is sliced off and the loop
    is left by [return]. *)
Fixpoint cleanup_loop (artist : string) (suffixes : list string) : string :=
  match suffixes with
  | [] => artist
  | suffix :: rest =>
      if JsString.endsWith artist suffix
      then JsString.slice0 artist (- JsString.length suffix)
      else cleanup_loop artist rest
  end.

(** [cleanupName(artist)].  A falsy argument is returned as it is.  A truthy
    argument that is not a string has no [endsWith] method, so the first
    iteration of the loop throws a TypeError. *)
Definition cleanupName (artist : jsval) : result jsval :=
  if negb (truthy artist) then Ok artist
  else match artist with
       | VStr s => Ok (VStr (cleanup_loop s suffixesToRemove))
       | _ => Err TypeError
       end.

(** ** Network interception: the CSP listener and the resolver *)

Module WebRequest.

(** Response headers as Electron hands them to a listener: a plain object
    from header name to an array of values.  Property access is by the exact
    key. *)
Abbreviation headers := (gmap string (list string)).

(** The values a listener can put into the object it passes to [callback]. *)
Inductive field :=
  | FBool (b : bool)
  | FHeaders (h : headers)
  | FStr (s : string).

(** A listener result: a plain object with own enumerable properties such as
    [cancel], [responseHeaders] and [statusLine]. *)
Abbreviation response := (gmap string field).

(** Truthiness of a property read, [None] being [undefined]. *)
Definition truthy_field (f : option field) : bool :=
  match f with
  | None => false
  | Some (FBool b) => b
  | Some (FHeaders _) => true
  | Some (FStr s) => negb (bool_decide (s = ""))
  end.

(** Truthiness of [responseHeaders[name]]: an array is truthy, also when it
    is empty, and a missing property is [undefined]. *)
Definition truthy_header (h : headers) (name : string) : bool :=
  match h !! name with
  | Some _ => true
  | None => false
  end.

(** The [details] object of an [onHeadersReceived] event, reduced to the
    property the listener reads and writes. *)
Record details := { responseHeaders : headers }.

(** The listener registered by [removeContentSecurityPolicy].  The two
    [delete] statements change [details.responseHeaders] in place, so the
    listener returns the [details] object as it leaves it together with the
    object it passes to [callback]. *)
Definition csp_listener (d : details) : details * response :=
  if negb (truthy_header (responseHeaders d) "content-security-policy-report-only")
     && negb (truthy_header (responseHeaders d) "content-security-policy")
  then (d, {[ "cancel" := FBool false ]})
  else
    let h := delete "content-security-policy"
               (delete "content-security-policy-report-only" (responseHeaders d)) in
    ({| responseHeaders := h |},
     <[ "responseHeaders" := FHeaders h ]> {[ "cancel" := FBool false ]}).

(** What the resolver is given for one event: for each registered listener,
    in registration order, an object whose [apply()] calls the listener and
    returns a promise of the object the listener passes to its callback.
    [apply] takes no argument.  [lid] names the listener so that calls can
    be recorded; [lresult] is what its promise is fulfilled with. *)
Record applier := { lid : nat; lresult : response }.

(** The first argument of the reducer.  [Array.prototype.reduce] passes the
    initial value to the first call and the return value of the previous call
    to every later one.  The reducer is an [async] function, so what it
    returns is a promise, here with the object it will be fulfilled with. *)
Inductive accumulator :=
  | Plain (o : response)
  | Promise (o : response).

(** [accumulator.cancel].  A promise has no [cancel] property. *)
Definition acc_cancel (a : accumulator) : option field :=
  match a with
  | Plain o => o !! "cancel"
  | Promise _ => None
  end.

(** [{...accumulator}].  A promise has no own enumerable property. *)
Definition spread (a : accumulator) : response :=
  match a with
  | Plain o => o
  | Promise _ => ∅
  end.

(** What awaiting the value yields. *)
Definition fulfilled (a : accumulator) : response :=
  match a with
  | Plain o => o
  | Promise o => o
  end.

(** The reducer, with the list of listeners called so far.  Its body runs
    up to the first [await] at once, when [reduce] calls it, so
    [listener.apply()] is called there.  In [{...accumulator, ...result}] the
    properties of [result] overwrite those of the accumulator. *)
Definition reducer (st : list nat * accumulator) (listener : applier)
  : list nat * accumulator :=
  let '(called, acc) := st in
  if truthy_field (acc_cancel acc) then (called, Promise (fulfilled acc))
  else
    let result := lresult listener in
    (called ++ [lid listener], Promise (result ∪ spread acc)).

(** The function passed to [setResolver]. *)
Definition resolver (listeners : list applier) : list nat * accumulator :=
  fold_left reducer listeners ([], Plain {[ "cancel" := FBool false ]}).

(** The listeners called for the event, in call order. *)
Definition invoked (listeners : list applier) : list nat :=
  fst (resolver listeners).

(** The object delivered for the event. *)
Definition resolved (listeners : list applier) : response :=
  fulfilled (snd (resolver listeners)).

(** The resolution as the design document words it: a left-to-right fold
    from [{cancel: false}] that stops calling listeners once [cancel] is
    true and merges each result over what was accumulated so far. *)
Definition merge_step (st : list nat * response) (listener : applier)
  : list nat * response :=
  let '(called, acc) := st in
  if truthy_field (acc !! "cancel") then (called, acc)
  else (called ++ [lid listener], lresult listener ∪ acc).

Definition fold_resolution (listeners : list applier) : list nat * response :=
  fold_left merge_step listeners ([], {[ "cancel" := FBool false ]}).

(** Header names compared without regard to case, as the design document
    words the recognition of the two CSP headers. *)
Definition lower_unit (c : ascii) : ascii :=
  let n := nat_of_ascii c in
  if ((65 <=? n) && (n <=? 90))%nat then ascii_of_nat (n + 32) else c.

Definition lower (s : string) : string :=
  JsString.of_units (map lower_unit (JsString.units s)).

Definition csp_names : list string :=
  [ "content-security-policy"; "content-security-policy-report-only" ].

Definition names_csp_ci (k : string) : bool :=
  bool_decide (lower k ∈ csp_names).

Definition has_csp_ci (h : headers) : bool :=
  existsb names_csp_ci (map fst (map_to_list h)).

End WebRequest.

(** ** The song-info provider *)

(** What the provider uses and does not define: [JSON.parse], [fetch] with
    [result.buffer()], and [nativeImage].  [JSON_parse] is [None] where
    [JSON.parse] throws a SyntaxError.  [fetch_buffer] carries the two awaits
    [await fetch(src)] and [await result.buffer()]; it is [Err] when one of
    the two promises is rejected.  [createFromBuffer] never throws: bytes it
    cannot decode give an empty image. *)
Record Host := {
  buffer : Type;
  image : Type;
  JSON_parse : string → option jsval;
  fetch_buffer : jsval → result buffer;
  createFromBuffer : buffer → image;
  isEmpty : image → bool;
}.

(** What the scripts run in the page return at the time of one event:
    [document.title], the [value] of the element selected by
    [progressSelector], and the text of the subtitle element read by
    [getArtist].  [executeJavaScript] returns a promise, rejected when the
    script throws. *)
Record Page := {
  document_title : string;
  progress_value : result jsval;
  subtitle_text : result jsval;
}.

(** Property reads on parsed data.  [lookup_field] is the own property of an
    object.  [get v k] is [v.k] for a value [v] that is neither [undefined]
    nor [null] and a key [k] that is neither an index, [length] nor a method
    name, which holds for every key the provider reads.  [opt_get v k] is
    [v?.k]. *)
Fixpoint lookup_field (k : string) (fields : list (string * jsval)) : jsval :=
  match fields with
  | [] => VUndefined
  | (k', v) :: rest => if bool_decide (k' = k) then v else lookup_field k rest
  end.

Definition get (v : jsval) (k : string) : jsval :=
  match v with
  | VObj fields => lookup_field k fields
  | _ => VUndefined
  end.

Definition opt_get (v : jsval) (k : string) : jsval :=
  if nullish v then VUndefined else get v k.

Notation "v ?. k" := (opt_get v k) (at level 45, left associativity).

(** [thumbnails?.pop()?.url].  Only an array has a [pop] method; on any other
    value that is not nullish the call throws a TypeError.  [pop] on an empty
    array is [undefined]. *)
Definition pop_url (thumbnails : jsval) : result jsval :=
  match thumbnails with
  | VUndefined | VNull => Ok VUndefined
  | VArr elems => Ok (List.last elems VUndefined ?. "url")
  | _ => Err TypeError
  end.

Section provider.
Variable host : Host.

(** The [songInfo] object. *)
Record SongInfo := {
  title : jsval;
  artist : jsval;
  views : jsval;
  uploadDate : jsval;
  imageSrc : jsval;
  image_ : option (image host);
  isPaused : jsval;
  songDuration : jsval;
  elapsedSeconds : jsval;
  url : jsval;
}.

Definition songInfo_initial : SongInfo :=
  {| title := VStr ""; artist := VStr ""; views := VNum 0; uploadDate := VStr "";
     imageSrc := VStr ""; image_ := None; isPaused := VUndefined;
     songDuration := VNum 0; elapsedSeconds := VNum 0; url := VStr "" |}.

(** The objects the provider module keeps and changes: [songInfo], the
    [callbacks] array (a callback is named by a number), what has been sent
    to the page with [win.webContents.send] (channel and the text made by
    [JSON.stringify], stood for by the record it was made from), what each
    callback has been called with, and the sources given to [fetch]. *)
Record State := {
  songInfo : SongInfo;
  callbacks : list nat;
  sent : list (string * SongInfo);
  delivered : list (nat * SongInfo);
  fetched : list jsval;
}.

Definition with_songInfo (f : SongInfo → SongInfo) (st : State) : State :=
  {| songInfo := f (songInfo st); callbacks := callbacks st; sent := sent st;
     delivered := delivered st; fetched := fetched st |}.

Definition set_title v (i : SongInfo) : SongInfo :=
  {| title := v; artist := artist i; views := views i; uploadDate := uploadDate i;
     imageSrc := imageSrc i; image_ := image_ i; isPaused := isPaused i;
     songDuration := songDuration i; elapsedSeconds := elapsedSeconds i; url := url i |}.
Definition set_artist v (i : SongInfo) : SongInfo :=
  {| title := title i; artist := v; views := views i; uploadDate := uploadDate i;
     imageSrc := imageSrc i; image_ := image_ i; isPaused := isPaused i;
     songDuration := songDuration i; elapsedSeconds := elapsedSeconds i; url := url i |}.
Definition set_views v (i : SongInfo) : SongInfo :=
  {| title := title i; artist := artist i; views := v; uploadDate := uploadDate i;
     imageSrc := imageSrc i; image_ := image_ i; isPaused := isPaused i;
     songDuration := songDuration i; elapsedSeconds := elapsedSeconds i; url := url i |}.
Definition set_uploadDate v (i : SongInfo) : SongInfo :=
  {| title := title i; artist := artist i; views := views i; uploadDate := v;
     imageSrc := imageSrc i; image_ := image_ i; isPaused := isPaused i;
     songDuration := songDuration i; elapsedSeconds := elapsedSeconds i; url := url i |}.
Definition set_imageSrc v (i : SongInfo) : SongInfo :=
  {| title := title i; artist := artist i; views := views i; uploadDate := uploadDate i;
     imageSrc := v; image_ := image_ i; isPaused := isPaused i;
     songDuration := songDuration i; elapsedSeconds := elapsedSeconds i; url := url i |}.
Definition set_image v (i : SongInfo) : SongInfo :=
  {| title := title i; artist := artist i; views := views i; uploadDate := uploadDate i;
     imageSrc := imageSrc i; image_ := v; isPaused := isPaused i;
     songDuration := songDuration i; elapsedSeconds := elapsedSeconds i; url := url i |}.
Definition set_isPaused v (i : SongInfo) : SongInfo :=
  {| title := title i; artist := artist i; views := views i; uploadDate := uploadDate i;
     imageSrc := imageSrc i; image_ := image_ i; isPaused := v;
     songDuration := songDuration i; elapsedSeconds := elapsedSeconds i; url := url i |}.
Definition set_songDuration v (i : SongInfo) : SongInfo :=
  {| title := title i; artist := artist i; views := views i; uploadDate := uploadDate i;
     imageSrc := imageSrc i; image_ := image_ i; isPaused := isPaused i;
     songDuration := v; elapsedSeconds := elapsedSeconds i; url := url i |}.
Definition set_elapsedSeconds v (i : SongInfo) : SongInfo :=
  {| title := title i; artist := artist i; views := views i; uploadDate := uploadDate i;
     imageSrc := imageSrc i; image_ := image_ i; isPaused := isPaused i;
     songDuration := songDuration i; elapsedSeconds := v; url := url i |}.
Definition set_url v (i : SongInfo) : SongInfo :=
  {| title := title i; artist := artist i; views := views i; uploadDate := uploadDate i;
     imageSrc := imageSrc i; image_ := image_ i; isPaused := isPaused i;
     songDuration := songDuration i; elapsedSeconds := elapsedSeconds i; url := v |}.

(** [getImage(src)], with the sources it fetches, in order.  The function
    calls itself, so the embedding counts calls down from [fuel]; [None] is
    "no answer within [fuel] calls".  When the decoded image is not empty the
    [&&] chain stops before [src.endsWith] is read; when it is empty and
    [src] is not a string, reading [src.endsWith] throws a TypeError. *)
Fixpoint getImage (fuel : nat) (src : jsval) : option (list jsval * result (image host)) :=
  match fuel with
  | O => None
  | S fuel' =>
      match fetch_buffer host src with
      | Err e => Some ([src], Err e)
      | Ok buf =>
          let output := createFromBuffer host buf in
          if isEmpty host output then
            match src with
            | VStr s =>
                if negb (JsString.endsWith s ".jpg") && JsString.includes s ".jpg"
                then
                  match getImage fuel'
                          (VStr (JsString.slice0 s (JsString.lastIndexOf s ".jpg" + 4))) with
                  | Some (more, r) => Some (src :: more, r)
                  | None => None
                  end
                else Some ([src], Ok output)
            | _ => Some ([src], Err TypeError)
            end
          else Some ([src], Ok output)
      end
  end.

(** Steps of an [async] function over the provider state: the state after
    the step and either a value or the error that rejects the promise of the
    function. [None] is as for [getImage]. *)
Definition Eff (A : Type) : Type := State → option (State * result A).

Definition eff_ret {A} (a : A) : Eff A := λ st, Some (st, Ok a).

Definition eff_bind {A B} (m : Eff A) (k : A → Eff B) : Eff B := λ st,
  match m st with
  | None => None
  | Some (st', Ok a) => k a st'
  | Some (st', Err e) => Some (st', Err e)
  end.

Definition lift {A} (r : result A) : Eff A := λ st, Some (st, r).

Definition assign (f : SongInfo → SongInfo) : Eff unit :=
  λ st, Some (with_songInfo f st, Ok ()).

End provider.

Arguments eff_ret {host A} a.
Arguments eff_bind {host A B} m k.
Arguments lift {host A} r.
Arguments assign {host} f.

Notation "x ⇐ m ;; k" := (eff_bind m (λ x, k))
  (at level 100, m at next level, right associativity, only parsing).
Notation "m ;;; k" := (eff_bind m (λ _, k))
  (at level 100, right associativity, only parsing).

Section handlers.
Variable host : Host.

(** [await getImage(songInfo.imageSrc)]. *)
Definition await_getImage (fuel : nat) : Eff host (image host) := λ st,
  match getImage host fuel (imageSrc host (songInfo host st)) with
  | None => None
  | Some (sources, r) =>
      Some ({| songInfo := songInfo host st; callbacks := callbacks host st;
               sent := sent host st; delivered := delivered host st;
               fetched := fetched host st ++ sources |}, r)
  end.

(** [win.webContents.send(channel, JSON.stringify(songInfo))]. *)
Definition send (channel : string) : Eff host unit := λ st,
  Some ({| songInfo := songInfo host st; callbacks := callbacks host st;
           sent := sent host st ++ [(channel, songInfo host st)];
           delivered := delivered host st; fetched := fetched host st |}, Ok ()).

(** [callbacks.forEach((c) => { c(songInfo); })].  Every callback is handed
    the one [songInfo] object; the record stored is its content at the time of
    the call.  Callbacks are taken to return without throwing and without
    writing to the object. *)
Definition notify : Eff host unit := λ st,
  Some ({| songInfo := songInfo host st; callbacks := callbacks host st;
           sent := sent host st;
           delivered := delivered host st
                        ++ map (λ c, (c, songInfo host st)) (callbacks host st);
           fetched := fetched host st |}, Ok ()).

(** [registerCallback(callback)]. *)
Definition registerCallback (callback : nat) (st : State host) : State host :=
  {| songInfo := songInfo host st; callbacks := callbacks host st ++ [callback];
     sent := sent host st; delivered := delivered host st; fetched := fetched host st |}.

Definition parse (responseText : string) : result jsval :=
  match JSON_parse host responseText with
  | Some data => Ok data
  | None => Err SyntaxError
  end.

(** The statements of [handleData] from [songInfo.artist = ...] on. *)
Definition handleData_from_artist (fuel : nat) (data : jsval) (page : Page)
  : Eff host unit :=
  dom ⇐ lift (subtitle_text page) ;;
  a ⇐ (if truthy dom then eff_ret dom
       else lift (cleanupName (data ?. "videoDetails" ?. "author"))) ;;
  assign (set_artist host a) ;;;
  assign (set_views host (data ?. "videoDetails" ?. "viewCount")) ;;;
  src ⇐ lift (pop_url (data ?. "videoDetails" ?. "thumbnail" ?. "thumbnails")) ;;
  assign (set_imageSrc host src) ;;;
  assign (set_songDuration host (data ?. "videoDetails" ?. "lengthSeconds")) ;;;
  img ⇐ await_getImage fuel ;;
  assign (set_image host (Some img)) ;;;
  assign (set_uploadDate host
            (data ?. "microformat" ?. "microformatDataRenderer" ?. "uploadDate")) ;;;
  assign (set_url host
            (data ?. "microformat" ?. "microformatDataRenderer" ?. "urlCanonical")) ;;;
  send "update-song-info".

(** [handleData(responseText, win)]. *)
Definition handleData (fuel : nat) (responseText : string) (page : Page)
  : Eff host unit :=
  data ⇐ lift (parse responseText) ;;
  t ⇐ lift (cleanupName (data ?. "videoDetails" ?. "title")) ;;
  assign (set_title host t) ;;;
  handleData_from_artist fuel data page.

(** [getPausedStatus(win)]: paused when the title has no ["-"]. *)
Definition getPausedStatus (page : Page) : bool :=
  negb (JsString.includes (document_title page) "-").

(** [getProgress(win)]. *)
Definition getProgress (page : Page) : result jsval := progress_value page.

(** The handler of ["page-title-updated"] set up by [registerProvider]. *)
Definition on_page_title_updated (page : Page) : Eff host unit :=
  assign (set_isPaused host (VBool (getPausedStatus page))) ;;;
  elapsed ⇐ lift (getProgress page) ;;
  assign (set_elapsedSeconds host elapsed) ;;;
  notify.

(** The handler of ["song-info-request"] set up by [registerProvider]. *)
Definition on_song_info_request (fuel : nat) (responseText : string) (page : Page)
  : Eff host unit :=
  handleData fuel responseText page ;;;
  notify.

(** The main process: the provider state and what [console.error] has been
    given.  [index.js] installs [unhandled] with [console.error] as logger
    and without a dialog, so a rejected promise of a handler is logged and
    the process goes on with the state the handler left. *)
Record Process := {
  provider : State host;
  logged : list error;
}.

Definition run_handler (handler : Eff host unit) (p : Process) : option Process :=
  match handler (provider p) with
  | None => None
  | Some (st, Ok _) => Some {| provider := st; logged := logged p |}
  | Some (st, Err e) => Some {| provider := st; logged := logged p ++ [e] |}
  end.

End handlers.

(** ** Properties of handler steps *)

Section step_properties.
Variable host : Host.

(** [keeps f m]: the step [m] leaves the part [f] of the state as it is,
    whatever its outcome. *)
Definition keeps {X A} (f : State host → X) (m : Eff host A) : Prop :=
  ∀ st st' r, m st = Some (st', r) → f st' = f st.

(** [ends_with_send m]: when [m] completes it has sent the final content of
    [songInfo] on ["update-song-info"], once, and has called no callback. *)
Definition ends_with_send (m : Eff host unit) : Prop :=
  ∀ st st', m st = Some (st', Ok ()) →
    sent host st' = sent host st ++ [("update-song-info", songInfo host st')]
    ∧ callbacks host st' = callbacks host st
    ∧ delivered host st' = delivered host st.

End step_properties.

Arguments keeps {host X A} f m.
Arguments ends_with_send {host} m.

(** ** The plugin loader *)

Module Plugins.

(** What is installed next to [index.js]: which paths exist, and for the
    path of a backend what calling the function it exports does with the
    options: return, or throw. *)
Record Install := {
  path_exists : string → bool;
  require : string → jsval → result unit;
}.

(** What loading leaves behind: the lines given to [console.log], the
    backends whose function has been called, in call order, with the options
    passed, and the errors that reached the process-wide handler installed by
    [unhandled]. *)
Record Loader := {
  console : list string;
  activated : list (string * jsval);
  reported : list (string * error);
}.

Definition log (line : string) (st : Loader) : Loader :=
  {| console := console st ++ [line]; activated := activated st;
     reported := reported st |}.

(** The callback [loadPlugins] passes to [fileExists]:
    [const handle = require(pluginPath); handle(win, options);]. *)
Definition activate (inst : Install) (pluginPath : string) (options : jsval)
    (st : Loader) : Loader * result unit :=
  ({| console := console st; activated := activated st ++ [(pluginPath, options)];
      reported := reported st |},
   require inst pluginPath options).

(** Modelled from the spec: [fileExists] of [plugins/utils], which is not
    among the sources.  The design document has it that a backend whose
    path does not exist is skipped without an error, that one whose path
    exists is activated, and that an activation that throws is reported to
    the owning process and does not reach the loop over the plugins. *)
Definition fileExists (inst : Install) (path : string)
    (callbackIfExists : Loader → Loader * result unit) (st : Loader)
  : Loader * result unit :=
  if path_exists inst path then
    match callbackIfExists st with
    | (st', Ok _) => (st', Ok ())
    | (st', Err e) =>
        ({| console := console st'; activated := activated st';
            reported := reported st' ++ [(path, e)] |}, Ok ())
    end
  else (st, Ok ()).

(** [path.join(__dirname, "plugins", plugin, "back.js")], relative to
    [__dirname]. *)
Definition backend_path (plugin : string) : string :=
  "plugins/" +:+ plugin +:+ "/back.js".

(** [array.forEach(f)]: a call of [f] that throws ends the loop. *)
Fixpoint forEach {A} (f : A → Loader → Loader * result unit) (l : list A)
    (st : Loader) : Loader * result unit :=
  match l with
  | [] => (st, Ok ())
  | x :: rest =>
      match f x st with
      | (st', Ok _) => forEach f rest st'
      | (st', Err e) => (st', Err e)
      end
  end.

(** The loop of [loadPlugins] over [config.plugins.getEnabled()], a list of
    pairs of a plugin name and its options. *)
Definition loadPlugins (inst : Install) (enabled : list (string * jsval))
    (st : Loader) : Loader * result unit :=
  forEach (λ '(plugin, options) st,
             let st := log ("Loaded plugin - " +:+ plugin) st in
             let pluginPath := backend_path plugin in
             fileExists inst pluginPath (activate inst pluginPath options) st)
          enabled st.

End Plugins.

(** Sample listeners used to run the resolver. *)
Module Samples.
Import WebRequest.

(** A listener that rewrites one header and one that leaves the response
    alone, as [csp_listener] does on a response without CSP headers. *)
Definition sets_frame_options : applier :=
  {| lid := 1;
     lresult := <[ "responseHeaders" := FHeaders {[ "x-frame-options" := ["ALLOWALL"] ]} ]>
                  {[ "cancel" := FBool false ]} |}.

Definition leaves_alone : applier :=
  {| lid := 2; lresult := {[ "cancel" := FBool false ]} |}.

Definition overrides_frame_options : applier :=
  {| lid := 2;
     lresult := {[ "responseHeaders" := FHeaders {[ "x-frame-options" := ["DENY"] ]} ]} |}.

Definition cancels : applier :=
  {| lid := 1; lresult := {[ "cancel" := FBool true ]} |}.

(** A response that carries its policy under the capitalised name. *)
Definition capitalised_csp : details :=
  {| responseHeaders := {[ "Content-Security-Policy" := ["default-src 'self'"] ]} |}.

Definition lowercase_csp : details :=
  {| responseHeaders :=
       <[ "content-security-policy" := ["default-src 'self'"] ]>
         {[ "content-type" := ["text/html"] ]} |}.

(** A host for running the provider: a buffer is the text of the bytes, an
    image is the text of its pixels, decodable bytes start with ["jpeg:"].
    The thumbnail address with a query string serves a WebP file, which
    [nativeImage] does not decode; the address cut after [".jpg"] serves a
    JPEG. *)
Definition hidden_webp : string := "https://i.ytimg.com/vi/x/hqdefault.jpg?sqp=abc".
Definition plain_jpg : string := "https://i.ytimg.com/vi/x/hqdefault.jpg".

Definition quoted (s : string) : string :=
  String (ascii_of_nat 34) (s +:+ String (ascii_of_nat 34) EmptyString).

(** The payload of the design document, with or without a title. *)
Definition payload_text (with_title : bool) : string :=
  "{" +:+ quoted "videoDetails" +:+ ":{"
  +:+ (if with_title then quoted "title" +:+ ":" +:+ quoted "Song - Topic" +:+ ","
       else EmptyString)
  +:+ quoted "author" +:+ ":" +:+ quoted "Band" +:+ ","
  +:+ quoted "viewCount" +:+ ":10,"
  +:+ quoted "thumbnail" +:+ ":{" +:+ quoted "thumbnails" +:+ ":[{"
  +:+ quoted "url" +:+ ":" +:+ quoted plain_jpg +:+ "}]},"
  +:+ quoted "lengthSeconds" +:+ ":180},"
  +:+ quoted "microformat" +:+ ":{" +:+ quoted "microformatDataRenderer" +:+ ":{"
  +:+ quoted "uploadDate" +:+ ":" +:+ quoted "2020-01-01" +:+ ","
  +:+ quoted "urlCanonical" +:+ ":" +:+ quoted "https://x" +:+ "}}}".

Definition payload_data (with_title : bool) : jsval :=
  VObj [ ("videoDetails",
          VObj ((if with_title then [("title", VStr "Song - Topic")] else [])
                ++ [ ("author", VStr "Band");
                     ("viewCount", VNum 10);
                     ("thumbnail", VObj [("thumbnails", VArr [VObj [("url", VStr plain_jpg)]])]);
                     ("lengthSeconds", VNum 180) ]));
         ("microformat",
          VObj [("microformatDataRenderer",
                 VObj [("uploadDate", VStr "2020-01-01");
                       ("urlCanonical", VStr "https://x")])]) ].

Definition host : Host :=
  {| buffer := string;
     image := string;
     JSON_parse := λ text,
       if bool_decide (text = payload_text true) then Some (payload_data true)
       else if bool_decide (text = payload_text false) then Some (payload_data false)
       else if bool_decide (text = "{}") then Some (VObj [])
       else None;
     fetch_buffer := λ src,
       match src with
       | VStr address =>
           if bool_decide (address = plain_jpg) then Ok "jpeg:cover"
           else if bool_decide (address = hidden_webp) then Ok "RIFF:WEBP"
           else Err FetchError
       | _ => Err FetchError
       end;
     createFromBuffer := λ b, if String.prefix "jpeg:" b then b else EmptyString;
     isEmpty := λ i, bool_decide (i = EmptyString) |}.

(** A page that is playing, with no subtitle element. *)
Definition page : Page :=
  {| document_title := "Song - YouTube Music";
     progress_value := Ok (VNum 42);
     subtitle_text := Ok VUndefined |}.

(** The provider with two callbacks registered and nothing handled yet. *)
Definition started : State host :=
  registerCallback host 2
    (registerCallback host 1
       {| songInfo := songInfo_initial host; callbacks := [];
          sent := []; delivered := []; fetched := [] |}).

(** Three enabled plugins: the first has no backend, the second has one that
    throws, the third has one that returns. *)
Definition install : Plugins.Install :=
  {| Plugins.path_exists := λ p,
       bool_decide (p = "plugins/shortcuts/back.js")
       || bool_decide (p = "plugins/downloader/back.js");
     Plugins.require := λ p _,
       if bool_decide (p = "plugins/shortcuts/back.js") then Err PluginError
       else Ok () |}.

Definition enabled : list (string * jsval) :=
  [ ("navigation", VObj []); ("shortcuts", VObj []); ("downloader", VObj []) ].

Definition fresh : Plugins.Loader :=
  {| Plugins.console := []; Plugins.activated := []; Plugins.reported := [] |}.

End Samples.

(** ** More of the provider *)

Section provider_more.
Variable host : Host.

(** The statements of [handleData] up to and including
    [await getImage(songInfo.imageSrc)], with the parsed payload and the image
    they end with. *)
Definition handleData_until_image (fuel : nat) (responseText : string) (page : Page)
  : Eff host (jsval * image host) :=
  data ⇐ lift (parse host responseText) ;;
  t ⇐ lift (cleanupName (data ?. "videoDetails" ?. "title")) ;;
  assign (set_title host t) ;;;
  dom ⇐ lift (subtitle_text page) ;;
  a ⇐ (if truthy dom then eff_ret dom
       else lift (cleanupName (data ?. "videoDetails" ?. "author"))) ;;
  assign (set_artist host a) ;;;
  assign (set_views host (data ?. "videoDetails" ?. "viewCount")) ;;;
  src ⇐ lift (pop_url (data ?. "videoDetails" ?. "thumbnail" ?. "thumbnails")) ;;
  assign (set_imageSrc host src) ;;;
  assign (set_songDuration host (data ?. "videoDetails" ?. "lengthSeconds")) ;;;
  img ⇐ await_getImage host fuel ;;
  eff_ret (data, img).

(** The statements of [handleData] that follow. *)
Definition handleData_after_image (data : jsval) (img : image host) : Eff host unit :=
  assign (set_image host (Some img)) ;;;
  assign (set_uploadDate host
            (data ?. "microformat" ?. "microformatDataRenderer" ?. "uploadDate")) ;;;
  assign (set_url host
            (data ?. "microformat" ?. "microformatDataRenderer" ?. "urlCanonical")) ;;;
  send host "update-song-info".

(** [registerCallback] called for each callback of a list, in order. *)
Definition registerCallbacks (cs : list nat) (st : State host) : State host :=
  fold_left (λ st c, registerCallback host c st) cs st.

End provider_more.


(** ** The application shell of [index.js] *)

(** [s.startsWith(p)]: [p] occurs in [s] at offset 0. *)
Definition startsWith (s p : string) : bool :=
  JsString.matches_at (JsString.units s) (JsString.units p) 0.

Module App.

(** Calls of [config.set], in call order: the key and the value. *)
Abbreviation config_sets := (list (string * jsval)).

(** The handler of ["did-navigate-in-page"], given what
    [win.webContents.getURL()] returns. *)
Definition on_did_navigate_in_page (url : string) (sets : config_sets) : config_sets :=
  if startsWith url "https://music.youtube.com"
  then sets ++ [("url", VStr url)]
  else sets.

(** The handler run for each address of a browsing session. *)
Definition navigate (urls : list string) (sets : config_sets) : config_sets :=
  fold_left (λ sets url, on_did_navigate_in_page url sets) urls sets.

(** What the callback of [showUnresponsiveDialog] may do. *)
Inductive action := Relaunch | Quit.

(** A [switch] statement: each clause has its label ([None] for [default]),
    its statements and whether it ends in [break].  Control enters at the
    first clause whose label is the value, or at [default], and runs on
    through the following clauses until a [break]. *)
Record clause := {
  label : option Z;
  statements : list action;
  breaks : bool;
}.

Fixpoint fall_through (clauses : list clause) : list action :=
  match clauses with
  | [] => []
  | c :: rest =>
      statements c ++ (if breaks c then [] else fall_through rest)
  end.

Fixpoint switch_labelled (v : Z) (clauses : list clause) : option (list action) :=
  match clauses with
  | [] => None
  | c :: rest =>
      match label c with
      | Some l => if v =? l then Some (fall_through clauses)
                  else switch_labelled v rest
      | None => switch_labelled v rest
      end
  end.

Fixpoint switch_default (clauses : list clause) : list action :=
  match clauses with
  | [] => []
  | c :: rest =>
      match label c with
      | None => fall_through clauses
      | Some _ => switch_default rest
      end
  end.

Definition switch (v : Z) (clauses : list clause) : list action :=
  match switch_labelled v clauses with
  | Some actions => actions
  | None => switch_default clauses
  end.

(** The [switch (result.response)] of [showUnresponsiveDialog]: [case 1]
    calls [app.relaunch()] and has no [break]; [case 2] calls [app.quit()]. *)
Definition unresponsive_clauses : list clause :=
  [ {| label := Some 1; statements := [Relaunch]; breaks := false |};
    {| label := Some 2; statements := [Quit]; breaks := true |};
    {| label := None; statements := []; breaks := true |} ].

Definition on_unresponsive_response (response : Z) : list action :=
  switch response unresponsive_clauses.

(** Closing the main window.  ["before-quit"] sets [forceQuit]; the handler
    of ["close"], which is installed when [is.macOS() || config.get("options.tray")],
    calls [event.preventDefault()] and [mainWindow.hide()] unless [forceQuit]
    is set.  [prevented] records, for each ["close"] event in turn, whether it
    was prevented. *)
Inductive window_event := BeforeQuit | Close.

Record Closing := {
  forceQuit : bool;
  prevented : list bool;
}.

Definition on_window_event (hide_on_close : bool) (st : Closing) (ev : window_event)
  : Closing :=
  match ev with
  | BeforeQuit => {| forceQuit := true; prevented := prevented st |}
  | Close =>
      if hide_on_close && negb (forceQuit st)
      then {| forceQuit := forceQuit st; prevented := prevented st ++ [true] |}
      else {| forceQuit := forceQuit st; prevented := prevented st ++ [false] |}
  end.

Definition ready : Closing := {| forceQuit := false; prevented := [] |}.

Definition is_close (ev : window_event) : bool :=
  match ev with
  | Close => true
  | BeforeQuit => false
  end.

(** The number of ["close"] events among the events. *)
Definition closes (evs : list window_event) : nat :=
  List.length (List.filter is_close evs).

Definition run_window_events (hide_on_close : bool) (evs : list window_event)
    (st : Closing) : Closing :=
  fold_left (on_window_event hide_on_close) evs st.

(** The [cwd] of the start-menu shortcut:
    [appLocation.slice(0, appLocation.lastIndexOf(path.sep))]. *)
Definition shortcut_cwd (sep appLocation : string) : string :=
  JsString.slice0 appLocation (JsString.lastIndexOf appLocation sep).

End App.

(** More sample values. *)
Module MoreSamples.

(** A payload whose title is a number. *)
Definition numeric_title_text : string :=
  "{" +:+ Samples.quoted "videoDetails" +:+ ":{" +:+ Samples.quoted "title" +:+ ":5}}".

Definition numeric_title_data : jsval :=
  VObj [ ("videoDetails", VObj [ ("title", VNum 5) ]) ].

(** A payload whose thumbnail cannot be fetched. *)
Definition unreachable_text : string :=
  "{" +:+ Samples.quoted "videoDetails" +:+ ":{"
  +:+ Samples.quoted "title" +:+ ":" +:+ Samples.quoted "Song" +:+ ","
  +:+ Samples.quoted "author" +:+ ":" +:+ Samples.quoted "BandVEVO" +:+ ","
  +:+ Samples.quoted "thumbnail" +:+ ":{" +:+ Samples.quoted "thumbnails" +:+ ":[{"
  +:+ Samples.quoted "url" +:+ ":" +:+ Samples.quoted "https://unreachable.invalid/a.png"
  +:+ "}]}}}".

Definition unreachable_data : jsval :=
  VObj [ ("videoDetails",
          VObj [ ("title", VStr "Song");
                 ("author", VStr "BandVEVO");
                 ("thumbnail",
                  VObj [("thumbnails",
                         VArr [VObj [("url", VStr "https://unreachable.invalid/a.png")]])]) ]) ].

Definition host : Host :=
  {| buffer := string;
     image := string;
     JSON_parse := λ text,
       if bool_decide (text = numeric_title_text) then Some numeric_title_data
       else if bool_decide (text = unreachable_text) then Some unreachable_data
       else JSON_parse Samples.host text;
     fetch_buffer := fetch_buffer Samples.host;
     createFromBuffer := createFromBuffer Samples.host;
     isEmpty := isEmpty Samples.host |}.

Definition started : State host :=
  registerCallbacks host [1; 2]%nat
    {| songInfo := songInfo_initial host; callbacks := [];
       sent := []; delivered := []; fetched := [] |}.

(** A page whose progress bar is missing: the script of [getProgress]
    throws. *)
Definition page_without_progress : Page :=
  {| document_title := "YouTube Music";
     progress_value := Err ScriptError;
     subtitle_text := Ok (VStr "Band") |}.

(** A page whose subtitle element names the artist. *)
Definition page_with_artist : Page :=
  {| document_title := "Song - YouTube Music";
     progress_value := Ok (VNum 7);
     subtitle_text := Ok (VStr "Band") |}.

(** The path separator of Windows and a program location. *)
Definition backslash : string := String (ascii_of_nat 92) EmptyString.

Definition program : string :=
  "C:" +:+ backslash +:+ "Apps" +:+ backslash +:+ "YouTube Music.exe".

End MoreSamples.
(** ** Facts about the string methods *)

Section string_facts.
Import JsString.

Lemma of_units_units s : of_units (units s) = s.
Proof. apply string_of_list_ascii_of_string. Qed.

Lemma units_of_units l : units (of_units l) = l.
Proof. apply list_ascii_of_string_of_list_ascii. Qed.

Lemma units_inj s t : units s = units t → s = t.
Proof. intros H. rewrite <- (of_units_units s), H. apply of_units_units. Qed.

Lemma units_app s t : units (s +:+ t) = units s ++ units t.
Proof. induction s as [|c s IH]; simpl; [done | by f_equal]. Qed.

Lemma of_units_app k l : of_units (k ++ l) = of_units k +:+ of_units l.
Proof. apply units_inj. by rewrite units_app, !units_of_units. Qed.

Lemma units_nil s : units s = [] → s = "".
Proof. by destruct s. Qed.

(** [endsWith] decides "is a suffix of". *)
Lemma endsWith_suffix s suf :
  endsWith s suf = true ↔ units suf `suffix_of` units s.
Proof.
  unfold endsWith. rewrite andb_true_iff, Nat.leb_le, bool_decide_eq_true.
  split.
  - intros [_ H]. rewrite <- H. apply suffix_drop.
  - intros [k Hk]. rewrite Hk, length_app. split; [lia|].
    replace (List.length k + List.length (units suf) - List.length (units suf))%nat
      with (List.length k) by lia.
    by rewrite drop_app_length.
Qed.

Lemma endsWith_app s suf : endsWith s suf = true ↔ ∃ pre, s = pre +:+ suf.
Proof.
  rewrite endsWith_suffix. split.
  - intros [k Hk]. exists (of_units k). apply units_inj.
    by rewrite units_app, units_of_units.
  - intros [pre ->]. exists (units pre). apply units_app.
Qed.

(** Slicing off as many code units as a non-empty suffix has gives back
    what stood before the suffix. *)
Lemma slice0_app_suffix pre suf :
  suf ≠ "" → slice0 (pre +:+ suf) (- JsString.length suf) = pre.
Proof.
  intros Hne. unfold slice0, JsString.length.
  assert (0 < List.length (units suf))%nat as Hlen.
  { destruct (units suf) eqn:E; [by apply units_nil in E | simpl; lia]. }
  destruct (Z.ltb_spec (- Z.of_nat (List.length (units suf))) 0); [|lia].
  rewrite units_app, length_app.
  replace (Z.to_nat (Z.max _ 0)) with (List.length (units pre)) by lia.
  rewrite take_app_length. apply of_units_units.
Qed.

Lemma app_length_lt pre suf :
  suf ≠ "" → pre +:+ suf ≠ pre.
Proof.
  intros Hne Heq. apply (f_equal units) in Heq. rewrite units_app in Heq.
  apply (f_equal List.length) in Heq. rewrite length_app in Heq.
  destruct (units suf) eqn:E; [by apply units_nil in E | simpl in Heq; lia].
Qed.

End string_facts.

(** ** Name cleanup *)

Section cleanup_facts.
Import JsString.

Lemma suffixes_nonempty : Forall (λ suffix, suffix ≠ "") suffixesToRemove.
Proof. unfold suffixesToRemove. repeat constructor; discriminate. Qed.

(** What one run of the loop does: either some suffix of the list is the
    first one the name ends with, and exactly that suffix is cut off, or
    the name ends with none of them and comes back as it is. *)
Lemma cleanup_loop_cases (s : string) (suffixes : list string) :
  Forall (λ suffix, suffix ≠ "") suffixes →
  (∃ before suffix after pre,
      suffixes = before ++ suffix :: after
      ∧ Forall (λ x, endsWith s x = false) before
      ∧ s = pre +:+ suffix
      ∧ cleanup_loop s suffixes = pre)
  ∨ (Forall (λ x, endsWith s x = false) suffixes ∧ cleanup_loop s suffixes = s).
Proof.
  induction 1 as [|suffix rest Hne _ IH]; simpl.
  - right. by split.
  - destruct (endsWith s suffix) eqn:E.
    + left. apply endsWith_app in E as [pre ->].
      exists [], suffix, rest, pre. repeat split; [constructor|].
      by apply slice0_app_suffix.
    + destruct IH as [(before & x & after & pre & -> & Hb & -> & Hc)|[Hall Hc]].
      * left. exists (suffix :: before), x, after, pre.
        repeat split; [by constructor | done].
      * right. split; [by constructor | done].
Qed.

Lemma cleanup_loop_fixed (s : string) (suffixes : list string) :
  Forall (λ suffix, suffix ≠ "") suffixes →
  cleanup_loop s suffixes = s ↔ Forall (λ x, endsWith s x = false) suffixes.
Proof.
  intros Hne. split.
  - intros Hfix.
    destruct (cleanup_loop_cases s suffixes Hne)
      as [(before & x & after & pre & Hs & _ & Hpre & Hc)|[Hall _]]; [|done].
    exfalso. rewrite Hc in Hfix. subst suffixes.
    apply Forall_app in Hne as [_ Hx]. apply Forall_cons in Hx as [Hx _].
    apply (app_length_lt pre x Hx). congruence.
  - induction 1 as [|x rest Hx _ IH]; simpl; [done|].
    apply Forall_cons in Hne as [_ Hne]. rewrite Hx. by apply IH.
Qed.

Lemma cleanupName_string (s : string) :
  cleanupName (VStr s) = Ok (VStr (cleanup_loop s suffixesToRemove)).
Proof.
  unfold cleanupName. simpl. case_bool_decide as Hs; simpl; [|done].
  subst s. reflexivity.
Qed.

End cleanup_facts.

(** C3, as stated: cleaning twice is the same as cleaning once.  It fails on
    a name that carries two suffixes of the list, one behind the other:
    ["ArtistVEVO - Topic"] becomes ["ArtistVEVO"], which becomes ["Artist"]. *)
Lemma cleanupName_not_idempotent :
  ¬ (∀ s : string,
       cleanupName (VStr s) ≫= cleanupName = cleanupName (VStr s)).
Proof.
  intros H. specialize (H "ArtistVEVO - Topic"). vm_compute in H. discriminate.
Qed.

(** C3, amended: every string has a cleaned name, and cleaning that name
    again gives it back exactly when it ends with none of the suffixes of
    the list. *)
Theorem cleanupName_idempotent_iff (s : string) :
  ∃ c : string,
    cleanupName (VStr s) = Ok (VStr c)
    ∧ (cleanupName (VStr c) = Ok (VStr c)
       ↔ Forall (λ suffix, JsString.endsWith c suffix = false) suffixesToRemove).
Proof.
  exists (cleanup_loop s suffixesToRemove). split; [apply cleanupName_string|].
  rewrite cleanupName_string.
  pose proof (cleanup_loop_fixed (cleanup_loop s suffixesToRemove)
                suffixesToRemove suffixes_nonempty) as [Hfix Hall].
  split.
  - intros [= Heq]. by apply Hfix.
  - intros H. by rewrite (Hall H).
Qed.

(** C4, as stated, includes that ["Artist VEVO VEVO"] is cleaned to
    ["Artist VEVO"].  The slice cuts the four code units of ["VEVO"] and
    nothing else, so the blank before them stays. *)
Lemma cleanupName_vevo_keeps_blank :
  cleanupName (VStr "Artist VEVO VEVO") ≠ Ok (VStr "Artist VEVO").
Proof. vm_compute. discriminate. Qed.

(** C4, amended: one application cuts off the first suffix of the ordered
    list that the name ends with, and only that one; a name that ends with
    none of them is returned unchanged; ["Artist VEVO VEVO"] is cleaned to
    ["Artist VEVO "], with the blank. *)
Theorem cleanupName_strips_one_suffix (s : string) :
  ((∃ before suffix after pre,
       suffixesToRemove = before ++ suffix :: after
       ∧ Forall (λ x, JsString.endsWith s x = false) before
       ∧ s = pre +:+ suffix
       ∧ cleanupName (VStr s) = Ok (VStr pre))
   ∨ (Forall (λ x, JsString.endsWith s x = false) suffixesToRemove
      ∧ cleanupName (VStr s) = Ok (VStr s)))
  ∧ cleanupName (VStr "Artist VEVO VEVO") = Ok (VStr "Artist VEVO ").
Proof.
  split; [|reflexivity].
  rewrite cleanupName_string.
  destruct (cleanup_loop_cases s suffixesToRemove suffixes_nonempty)
    as [(before & x & after & pre & Hs & Hb & Hpre & Hc)|[Hall Hc]].
  - left. exists before, x, after, pre. by rewrite Hc.
  - right. by rewrite Hc.
Qed.

(** ** The resolver of [onHeadersReceived] listeners *)

Section resolver_facts.
Import WebRequest.

Lemma resolver_snoc (ls : list applier) (l : applier) :
  resolver (ls ++ [l]) = reducer (resolver ls) l.
Proof. unfold resolver. by rewrite fold_left_app. Qed.

(** Once a listener has gone through the reducer, what [reduce] carries on
    is a promise. *)
Lemma resolver_promise (ls : list applier) :
  ls ≠ [] → ∃ o, snd (resolver ls) = Promise o.
Proof.
  destruct ls as [|l ls _] using rev_ind; [done|]. intros _.
  rewrite resolver_snoc. destruct (resolver ls) as [called acc]. simpl.
  destruct (truthy_field (acc_cancel acc)); eauto.
Qed.

(** The [cancel] test of the reducer never holds: on the first call the
    accumulator is [{cancel: false}], later it is a promise. *)
Lemma resolver_cancel_test (ls : list applier) :
  truthy_field (acc_cancel (snd (resolver ls))) = false.
Proof.
  destruct ls as [|l ls].
  - reflexivity.
  - destruct (resolver_promise (l :: ls)) as [o ->]; done.
Qed.

Lemma resolver_step (ls : list applier) (l : applier) :
  resolver (ls ++ [l])
  = (fst (resolver ls) ++ [lid l],
     Promise (lresult l ∪ spread (snd (resolver ls)))).
Proof.
  rewrite resolver_snoc. pose proof (resolver_cancel_test ls) as Hc.
  destruct (resolver ls) as [called acc]. simpl in *. by rewrite Hc.
Qed.

(** Every listener is called, in registration order. *)
Lemma invoked_all (ls : list applier) : invoked ls = map lid ls.
Proof.
  unfold invoked. induction ls as [|l ls IH] using rev_ind; [done|].
  rewrite resolver_step, map_app. simpl. by rewrite IH.
Qed.

(** With two listeners or more, the object delivered is the result of the
    last one alone. *)
Lemma resolved_last (ls : list applier) (l : applier) :
  ls ≠ [] → resolved (ls ++ [l]) = lresult l.
Proof.
  intros Hne. unfold resolved. rewrite resolver_step. simpl.
  destruct (resolver_promise ls Hne) as [o ->]. simpl.
  apply (right_id_L ∅ (∪)).
Qed.

Lemma resolved_single (l : applier) :
  resolved [l] = lresult l ∪ {[ "cancel" := FBool false ]}.
Proof. reflexivity. Qed.

End resolver_facts.

(** C1: the object delivered is the left-to-right fold that merges every
    listener's result over what was accumulated, so a property set by an
    earlier listener and left alone by the later ones is in it.  The reducer
    writes that merge, [{...accumulator, ...result}], but from the second call
    on its accumulator is the promise returned by the previous call, which is
    never awaited and spreads to nothing.  With a listener that rewrites a
    header followed by one that answers [{cancel: false}], both are called and
    the object delivered is [{cancel: false}] alone, while the fold keeps the
    rewritten headers.  Where both listeners set the headers, the later one
    wins, as in the fold. *)
Theorem resolver_loses_earlier_answer :
  WebRequest.invoked [Samples.sets_frame_options; Samples.leaves_alone] = [1; 2]%nat
  ∧ WebRequest.resolved [Samples.sets_frame_options; Samples.leaves_alone]
    = {[ "cancel" := WebRequest.FBool false ]}
  ∧ WebRequest.resolved [Samples.sets_frame_options; Samples.leaves_alone]
      !! "responseHeaders" = None
  ∧ WebRequest.fold_resolution [Samples.sets_frame_options; Samples.leaves_alone]
    = ([1; 2]%nat,
       <[ "responseHeaders" :=
            WebRequest.FHeaders {[ "x-frame-options" := ["ALLOWALL"] ]} ]>
         {[ "cancel" := WebRequest.FBool false ]})
  ∧ WebRequest.resolved [Samples.sets_frame_options; Samples.overrides_frame_options]
      !! "responseHeaders"
    = Some (WebRequest.FHeaders {[ "x-frame-options" := ["DENY"] ]})
  ∧ snd (WebRequest.fold_resolution
           [Samples.sets_frame_options; Samples.overrides_frame_options])
      !! "responseHeaders"
    = Some (WebRequest.FHeaders {[ "x-frame-options" := ["DENY"] ]}).
Proof. repeat split; vm_compute; reflexivity. Qed.

(** C2: a listener that cancels stops the resolution.  The reducer tests
    [accumulator.cancel] on the promise returned by the previous call, which
    has no such property, so the test never holds: after a listener that
    returns [{cancel: true}] the next listener is called all the same, and the
    object delivered is that next listener's, with [cancel] false.  The fold
    of the design document calls the first listener only and delivers
    [{cancel: true}]. *)
Theorem resolver_cancel_not_honoured :
  WebRequest.invoked [Samples.cancels; Samples.leaves_alone] = [1; 2]%nat
  ∧ WebRequest.resolved [Samples.cancels; Samples.leaves_alone] !! "cancel"
    = Some (WebRequest.FBool false)
  ∧ WebRequest.fold_resolution [Samples.cancels; Samples.leaves_alone]
    = ([1%nat], {[ "cancel" := WebRequest.FBool true ]}).
Proof. repeat split. Qed.

(** ** The CSP listener *)

(** C7, as stated: the two header names are recognised whatever their case.
    The listener reads the two lower-case keys only; a response carrying
    ["Content-Security-Policy"] is answered with [{cancel: false}] and keeps
    its policy. *)
Lemma csp_listener_misses_capitalised :
  ¬ (∀ d : WebRequest.details,
       if WebRequest.has_csp_ci (WebRequest.responseHeaders d)
       then ∃ h, snd (WebRequest.csp_listener d)
                 = <[ "responseHeaders" := WebRequest.FHeaders h ]>
                     {[ "cancel" := WebRequest.FBool false ]}
                 ∧ WebRequest.has_csp_ci h = false
       else WebRequest.csp_listener d = (d, {[ "cancel" := WebRequest.FBool false ]})).
Proof.
  intros H. specialize (H Samples.capitalised_csp).
  assert (WebRequest.has_csp_ci (WebRequest.responseHeaders Samples.capitalised_csp)
          = true) as Hci by (vm_compute; reflexivity).
  rewrite Hci in H. clear Hci.
  destruct H as (h & Heq & _).
  apply (f_equal (λ o : WebRequest.response, o !! "responseHeaders")) in Heq.
  rewrite lookup_insert_eq in Heq. vm_compute in Heq. discriminate Heq.
Qed.

(** On a response with the lower-case policy header the listener removes it
    and passes the other headers on. *)
Example csp_listener_removes_lowercase :
  snd (WebRequest.csp_listener Samples.lowercase_csp)
  = <[ "responseHeaders" := WebRequest.FHeaders {[ "content-type" := ["text/html"] ]} ]>
      {[ "cancel" := WebRequest.FBool false ]}.
Proof.
  vm_compute. reflexivity.
Qed.

(** C7, amended: the listener recognises the exact keys
    ["content-security-policy"] and ["content-security-policy-report-only"].
    When the header object has neither key it answers [{cancel: false}] and
    leaves the headers as they are; otherwise it removes both keys, keeps
    every other key (differently cased variants included) and answers with
    [cancel] false and the remaining headers. *)
Theorem csp_listener_exact_names (d : WebRequest.details) :
  let h := WebRequest.responseHeaders d in
  let h' := WebRequest.responseHeaders (fst (WebRequest.csp_listener d)) in
  (∀ k, h' !! k = if bool_decide (k ∈ WebRequest.csp_names) then None else h !! k)
  ∧ snd (WebRequest.csp_listener d)
    = (if bool_decide (h !! "content-security-policy" = None
                       ∧ h !! "content-security-policy-report-only" = None)
       then {[ "cancel" := WebRequest.FBool false ]}
       else <[ "responseHeaders" := WebRequest.FHeaders h' ]>
              {[ "cancel" := WebRequest.FBool false ]})
  ∧ (h !! "content-security-policy" = None
     ∧ h !! "content-security-policy-report-only" = None
     ↔ fst (WebRequest.csp_listener d) = d)
  ∧ WebRequest.csp_listener Samples.capitalised_csp
    = (Samples.capitalised_csp, {[ "cancel" := WebRequest.FBool false ]}).
Proof.
  destruct d as [h]. cbn zeta. unfold WebRequest.csp_listener, WebRequest.truthy_header.
  cbn [WebRequest.responseHeaders].
  destruct (h !! "content-security-policy-report-only") as [ro|] eqn:Hro;
    destruct (h !! "content-security-policy") as [csp|] eqn:Hcsp; cbn [negb andb fst snd];
    cbn [WebRequest.responseHeaders].
  all: split; [intros k; unfold WebRequest.csp_names; case_bool_decide as Hk;
               [apply list_elem_of_In in Hk; simpl in Hk;
                destruct Hk as [<-|[<-|[]]]; simplify_map_eq; done
               |rewrite ?lookup_delete_ne; [done|..];
                intros <-; apply Hk; set_solver]|].
  all: split; [case_bool_decide as Hb; [try (destruct Hb; congruence)|
                                         try (exfalso; apply Hb; done)]; done|].
  all: split; [|reflexivity].
  all: split; [intros [? ?]; try congruence; done|].
  all: intros Heq; try done; exfalso; injection Heq as Heq.
  - apply (f_equal (λ m : WebRequest.headers, m !! "content-security-policy")) in Heq.
    rewrite lookup_delete_eq in Heq. congruence.
  - apply (f_equal (λ m : WebRequest.headers, m !! "content-security-policy-report-only")) in Heq.
    rewrite lookup_delete_ne, lookup_delete_eq in Heq by done. congruence.
  - apply (f_equal (λ m : WebRequest.headers, m !! "content-security-policy")) in Heq.
    rewrite lookup_delete_eq in Heq. congruence.
Qed.

(** ** The plugin loader *)

Section loader_facts.
Import Plugins.

(** One turn of the loop never throws, whatever the backend does. *)
Lemma loadPlugins_cons (inst : Install) plugin options rest (st : Loader) :
  loadPlugins inst ((plugin, options) :: rest) st
  = loadPlugins inst rest
      (fst (fileExists inst (backend_path plugin)
              (activate inst (backend_path plugin) options)
              (log ("Loaded plugin - " +:+ plugin) st))).
Proof.
  unfold loadPlugins at 1. simpl. unfold fileExists.
  destruct (path_exists inst (backend_path plugin)); [|done].
  simpl. destruct (require inst (backend_path plugin) options); done.
Qed.

End loader_facts.

(** C9: for every list of enabled plugins the loop of the loader ends
    without an error; a plugin whose backend file does not exist is passed
    over; every plugin whose backend file exists has its entry function
    called, in the order of the list, also when the entry function of an
    earlier plugin threw; what was thrown is reported. *)
Theorem loadPlugins_loads_every_backend
    (inst : Plugins.Install) (enabled : list (string * jsval)) (st : Plugins.Loader) :
  let present :=
    List.filter (λ p, Plugins.path_exists inst (Plugins.backend_path p.1)) enabled in
  let st' := fst (Plugins.loadPlugins inst enabled st) in
  snd (Plugins.loadPlugins inst enabled st) = Ok ()
  ∧ Plugins.activated st'
    = Plugins.activated st ++ map (λ p, (Plugins.backend_path p.1, p.2)) present
  ∧ Plugins.console st'
    = Plugins.console st ++ map (λ p, "Loaded plugin - " +:+ p.1) enabled
  ∧ Plugins.reported st'
    = Plugins.reported st
      ++ omap (λ p, match Plugins.require inst (Plugins.backend_path p.1) p.2 with
                    | Err e => Some (Plugins.backend_path p.1, e)
                    | Ok _ => None
                    end) present.
Proof.
  revert st. induction enabled as [|[plugin options] rest IH]; intros st; cbn zeta.
  - simpl. by rewrite !app_nil_r.
  - rewrite loadPlugins_cons.
    specialize (IH (fst (Plugins.fileExists inst (Plugins.backend_path plugin)
                           (Plugins.activate inst (Plugins.backend_path plugin) options)
                           (Plugins.log ("Loaded plugin - " +:+ plugin) st)))).
    cbn zeta in IH. destruct IH as (Hok & Hact & Hlog & Hrep).
    rewrite Hok, Hact, Hlog, Hrep. clear Hok Hact Hlog Hrep.
    unfold Plugins.fileExists. cbn [List.filter fst snd].
    destruct (Plugins.path_exists inst (Plugins.backend_path plugin)) eqn:Hex.
    + cbn [Plugins.activate fst snd map omap].
      destruct (Plugins.require inst (Plugins.backend_path plugin) options) eqn:Hreq;
        cbn; rewrite ?Hreq, <- ?app_assoc; done.
    + cbn. rewrite <- ?app_assoc. done.
Qed.

(** ** Cover image resolution *)

Section search_facts.
Import JsString.

Lemma app_assoc_string (a b c : string) : (a +:+ b) +:+ c = a +:+ b +:+ c.
Proof. apply units_inj. by rewrite !units_app, app_assoc. Qed.

Lemma length_app_string (a b : string) :
  JsString.length (a +:+ b) = JsString.length a + JsString.length b.
Proof. unfold JsString.length. rewrite units_app, length_app. lia. Qed.

(** Slicing at the length of a prefix gives the prefix. *)
Lemma slice0_prefix (a b : string) : slice0 (a +:+ b) (JsString.length a) = a.
Proof.
  unfold slice0. rewrite length_app_string. unfold JsString.length.
  destruct (Z.ltb_spec (Z.of_nat (List.length (units a))) 0); [lia|].
  replace (Z.to_nat (Z.min _ _)) with (List.length (units a)) by lia.
  rewrite units_app, take_app_length. apply of_units_units.
Qed.

Lemma reverse_seq_S (n : nat) : reverse (seq 0 (S n)) = n :: reverse (seq 0 n).
Proof. rewrite seq_S. simpl. apply reverse_snoc. Qed.

(** Searching the offsets from the greatest down finds the greatest offset
    that satisfies the test. *)
Lemma find_downwards (P : nat → bool) (n k : nat) :
  List.find P (reverse (seq 0 n)) = Some k →
  P k = true ∧ (k < n)%nat ∧ ∀ j, (k < j < n)%nat → P j = false.
Proof.
  induction n as [|n IH]; [discriminate|].
  rewrite reverse_seq_S. simpl. destruct (P n) eqn:Hn.
  - intros [= <-]. repeat split; [done | lia | intros j; lia].
  - intros Hk. destruct (IH Hk) as (Hp & Hlt & Hlast).
    repeat split; [done | lia |].
    intros j Hj. destruct (decide (j = n)) as [->|]; [done|]. apply Hlast. lia.
Qed.

Lemma find_downwards_None (P : nat → bool) (n j : nat) :
  List.find P (reverse (seq 0 n)) = None → (j < n)%nat → P j = false.
Proof.
  intros Hnone Hj. apply (find_none _ _ Hnone).
  apply list_elem_of_In, elem_of_reverse, list_elem_of_In, in_seq. lia.
Qed.

Lemma matches_at_split (l p : list ascii) (k : nat) :
  matches_at l p k = true →
  l = take k l ++ p ++ drop (k + List.length p) l.
Proof.
  unfold matches_at. rewrite bool_decide_eq_true. intros Hp.
  rewrite <- (take_drop k l) at 1. f_equal.
  rewrite <- (take_drop (List.length p) (drop k l)) at 1.
  by rewrite Hp, drop_drop.
Qed.

Lemma matches_at_app (pre p rest : list ascii) :
  matches_at (pre ++ p ++ rest) p (List.length pre) = true.
Proof.
  unfold matches_at. rewrite bool_decide_eq_true.
  by rewrite drop_app_length, take_app_length.
Qed.

(** A string that includes a pattern splits at the last place where the
    pattern occurs, which is where [lastIndexOf] points. *)
Lemma includes_lastIndexOf (s p : string) :
  includes s p = true →
  ∃ pre rest,
    s = pre +:+ p +:+ rest
    ∧ lastIndexOf s p = JsString.length pre
    ∧ ∀ pre' rest', s = pre' +:+ p +:+ rest' →
                    JsString.length pre' ≤ JsString.length pre.
Proof.
  unfold includes, lastIndexOf. intros Hin.
  apply existsb_exists in Hin as (j & Hj & Hmj). apply in_seq in Hj.
  destruct (List.find _ _) as [k|] eqn:Hfind.
  - apply find_downwards in Hfind as (Hk & Hlt & Hlast).
    pose proof (matches_at_split _ _ _ Hk) as Hsplit.
    assert (k ≤ List.length (units s))%nat as Hle by lia.
    exists (of_units (take k (units s))),
           (of_units (drop (k + List.length (units p)) (units s))).
    assert (JsString.length (of_units (take k (units s))) = Z.of_nat k) as Hlen.
    { unfold JsString.length. rewrite units_of_units, length_take. lia. }
    split; [|split].
    + apply units_inj. by rewrite !units_app, !units_of_units.
    + by rewrite Hlen.
    + intros pre' rest' Hs. rewrite Hlen. unfold JsString.length.
      destruct (decide (List.length (units pre') ≤ k)%nat); [lia|]. exfalso.
      assert (matches_at (units s) (units p) (List.length (units pre')) = true) as Hm.
      { rewrite Hs at 1. rewrite !units_app. apply matches_at_app. }
      assert (List.length (units pre') < S (List.length (units s)))%nat.
      { rewrite Hs, !units_app, !length_app. lia. }
      rewrite Hlast in Hm by lia. discriminate Hm.
  - exfalso. rewrite (find_downwards_None _ _ j Hfind) in Hmj by lia.
    discriminate Hmj.
Qed.

End search_facts.

Section getImage_facts.
Variable host : Host.

Lemma getImage_unfold (fuel : nat) (src : jsval) :
  getImage host (S fuel) src
  = match fetch_buffer host src with
    | Err e => Some ([src], Err e)
    | Ok buf =>
        if isEmpty host (createFromBuffer host buf) then
          match src with
          | VStr s =>
              if negb (JsString.endsWith s ".jpg") && JsString.includes s ".jpg"
              then
                match getImage host fuel
                        (VStr (JsString.slice0 s (JsString.lastIndexOf s ".jpg" + 4))) with
                | Some (more, r) => Some (src :: more, r)
                | None => None
                end
              else Some ([src], Ok (createFromBuffer host buf))
          | _ => Some ([src], Err TypeError)
          end
        else Some ([src], Ok (createFromBuffer host buf))
    end.
Proof. reflexivity. Qed.

(** A source that ends in [".jpg"] is fetched and decoded once. *)
Lemma getImage_jpg (fuel : nat) (s : string) :
  JsString.endsWith s ".jpg" = true →
  getImage host (S fuel) (VStr s)
  = Some ([VStr s],
          match fetch_buffer host (VStr s) with
          | Ok b => Ok (createFromBuffer host b)
          | Err e => Err e
          end).
Proof.
  intros Hjpg. rewrite getImage_unfold.
  destruct (fetch_buffer host (VStr s)) as [b|e]; [|done].
  rewrite Hjpg. simpl. by destruct (isEmpty host (createFromBuffer host b)).
Qed.

(** The source of the second attempt: the first one cut right behind the
    last [".jpg"] in it. *)
Lemma retry_source (s : string) :
  JsString.includes s ".jpg" = true →
  ∃ pre rest,
    s = pre +:+ ".jpg" +:+ rest
    ∧ JsString.slice0 s (JsString.lastIndexOf s ".jpg" + 4) = pre +:+ ".jpg"
    ∧ ∀ pre' rest', s = pre' +:+ ".jpg" +:+ rest' →
                    JsString.length pre' ≤ JsString.length pre.
Proof.
  intros Hin. destruct (includes_lastIndexOf s ".jpg" Hin) as (pre & rest & Hs & Hidx & Hlast).
  exists pre, rest. repeat split; [done | | done].
  rewrite Hidx. change 4 with (JsString.length ".jpg").
  rewrite <- length_app_string. rewrite Hs at 1.
  rewrite <- app_assoc_string. apply slice0_prefix.
Qed.

End getImage_facts.

(** C8, as stated, includes that a failing fetch gives an image and raises
    nothing.  [getImage] awaits [fetch] outside any [try]: when the fetch is
    rejected, so is [getImage]. *)
Lemma getImage_raises_on_fetch_failure :
  ¬ (∀ (host : Host) (fuel : nat) (src : jsval) sources r,
       getImage host fuel src = Some (sources, r) → is_ok r = true).
Proof.
  intros H.
  specialize (H Samples.host 2%nat (VStr "https://unreachable.invalid/cover.png")
                _ _ eq_refl).
  discriminate H.
Qed.

(** C8, amended: [getImage] answers within two calls, so after at most one
    retry.  The retry is made exactly when the first fetch succeeds, the
    decoded image is empty, the source does not end in [".jpg"] and includes
    [".jpg"]; it uses the source cut right behind the last [".jpg"] in it and
    its outcome is the outcome of [getImage].  Without a retry the decoded
    image, empty or not, is returned.  A fetch that is rejected, on the first
    attempt or on the retry, rejects [getImage]; so does an empty image for a
    source that is not a string. *)
Theorem getImage_at_most_one_retry (host : Host) (fuel : nat) (src : jsval) :
  (2 ≤ fuel)%nat →
  ∃ sources r,
    getImage host fuel src = Some (sources, r)
    ∧ (List.length sources ≤ 2)%nat
    ∧ match fetch_buffer host src with
      | Err e => sources = [src] ∧ r = Err e
      | Ok buf =>
          let output := createFromBuffer host buf in
          if isEmpty host output then
            match src with
            | VStr s =>
                if negb (JsString.endsWith s ".jpg") && JsString.includes s ".jpg"
                then
                  ∃ pre rest,
                    s = pre +:+ ".jpg" +:+ rest
                    ∧ (∀ pre' rest', s = pre' +:+ ".jpg" +:+ rest' →
                                     JsString.length pre' ≤ JsString.length pre)
                    ∧ sources = [src; VStr (pre +:+ ".jpg")]
                    ∧ r = match fetch_buffer host (VStr (pre +:+ ".jpg")) with
                          | Ok b => Ok (createFromBuffer host b)
                          | Err e => Err e
                          end
                else sources = [src] ∧ r = Ok output
            | _ => sources = [src] ∧ r = Err TypeError
            end
          else sources = [src] ∧ r = Ok output
      end.
Proof.
  intros Hfuel. destruct fuel as [|[|fuel]]; [lia | lia | clear Hfuel].
  rewrite getImage_unfold. destruct (fetch_buffer host src) as [buf|e] eqn:Hfetch.
  2: { eexists _, _. split; [done|]. split; [simpl; lia | done]. }
  cbn zeta. destruct (isEmpty host (createFromBuffer host buf)) eqn:Hempty.
  2: { eexists _, _. split; [done|]. split; [simpl; lia | done]. }
  destruct src as [| | | |s| |];
    try (eexists _, _; split; [done|]; split; [simpl; lia | done]).
  destruct (negb (JsString.endsWith s ".jpg") && JsString.includes s ".jpg") eqn:Hretry.
  2: { eexists _, _. split; [done|]. split; [simpl; lia | done]. }
  apply andb_true_iff in Hretry as [_ Hin].
  destruct (retry_source s Hin) as (pre & rest & Hs & Hcut & Hlast).
  rewrite Hcut.
  rewrite getImage_jpg by (apply endsWith_app; by exists pre).
  eexists _, _. split; [done|]. split; [simpl; lia|].
  exists pre, rest. done.
Qed.

Lemma getImage_at_most_one_retry_witness :
  (2 ≤ 2)%nat
  ∧ ∃ sources r,
      getImage Samples.host 2 (VStr Samples.hidden_webp) = Some (sources, r)
      ∧ (List.length sources ≤ 2)%nat.
Proof.
  assert (2 ≤ 2)%nat as H by lia.
  split; [exact H|].
  destruct (getImage_at_most_one_retry Samples.host 2 (VStr Samples.hidden_webp) H)
    as (sources & r & Heq & Hlen & _).
  exists sources, r. split; [exact Heq | exact Hlen].
Defined.

(** ** The song-info provider *)

Section provider_facts.
Variable host : Host.

Lemma eff_bind_Ok {A B} (m : Eff host A) (k : A → Eff host B) st st' (b : B) :
  eff_bind m k st = Some (st', Ok b) →
  ∃ st1 a, m st = Some (st1, Ok a) ∧ k a st1 = Some (st', Ok b).
Proof.
  unfold eff_bind. destruct (m st) as [[st1 [a|e]]|]; [eauto | done | done].
Qed.

Lemma eff_bind_Some {A B} (m : Eff host A) (k : A → Eff host B) st st' (r : result B) :
  eff_bind m k st = Some (st', r) →
  (∃ st1 a, m st = Some (st1, Ok a) ∧ k a st1 = Some (st', r))
  ∨ (∃ e, m st = Some (st', Err e) ∧ r = Err e).
Proof.
  unfold eff_bind. destruct (m st) as [[st1 [a|e]]|]; [eauto | | done].
  intros [= -> <-]. eauto.
Qed.

Lemma keeps_lift {X A} (f : State host → X) (r : result A) : keeps f (lift r).
Proof. by intros st st' r' [= <- _]. Qed.

Lemma keeps_ret {X A} (f : State host → X) (a : A) : keeps f (eff_ret a).
Proof. by intros st st' r' [= <- _]. Qed.

Lemma keeps_bind {X A B} (f : State host → X) (m : Eff host A) (k : A → Eff host B) :
  keeps f m → (∀ a, keeps f (k a)) → keeps f (eff_bind m k).
Proof.
  intros Hm Hk st st' r H.
  apply eff_bind_Some in H as [(st1 & a & H1 & H2)|(e & H1 & _)].
  - rewrite (Hk a _ _ _ H2). by apply (Hm _ _ _ H1).
  - by apply (Hm _ _ _ H1).
Qed.

Lemma keeps_assign {X} (f : State host → X) g :
  (∀ st, f (with_songInfo host g st) = f st) → keeps f (assign g).
Proof. intros Hf st st' r' [= <- _]. apply Hf. Qed.

Lemma keeps_await_getImage {X} (f : State host → X) fuel :
  (∀ st sources,
     f {| songInfo := songInfo host st; callbacks := callbacks host st;
          sent := sent host st; delivered := delivered host st;
          fetched := fetched host st ++ sources |} = f st) →
  keeps f (await_getImage host fuel).
Proof.
  intros Hf st st' r'. unfold await_getImage.
  destruct (getImage _ _ _) as [[sources r]|]; [|done]. intros [= <- _]. apply Hf.
Qed.

Lemma keeps_notify {X} (f : State host → X) :
  (∀ st more,
     f {| songInfo := songInfo host st; callbacks := callbacks host st;
          sent := sent host st; delivered := delivered host st ++ more;
          fetched := fetched host st |} = f st) →
  keeps f (notify host).
Proof. intros Hf st st' r' [= <- _]. apply Hf. Qed.



End provider_facts.

(** Goals of the form [keeps f m] for the steps the handlers are made of. *)
Ltac keeps_steps :=
  repeat first
    [ apply keeps_bind; [|intros ?]
    | apply keeps_lift
    | apply keeps_ret
    | apply keeps_assign; intros ?; reflexivity
    | apply keeps_await_getImage; intros ? ?; reflexivity
    | apply keeps_notify; intros ? ?; reflexivity
    | match goal with |- keeps _ (if ?b then _ else _) => destruct b end ].

Section trigger_facts.
Variable host : Host.

(** The title handler sends nothing, whether it completes or not. *)
Lemma on_page_title_updated_keeps_sent (page : Page) :
  keeps (sent host) (on_page_title_updated host page).
Proof. unfold on_page_title_updated. keeps_steps. Qed.

Lemma on_page_title_updated_total (page : Page) (st : State host) :
  ∃ st' r, on_page_title_updated host page st = Some (st', r).
Proof.
  unfold on_page_title_updated, eff_bind, assign, lift, getProgress, notify.
  destruct (progress_value page); eauto.
Qed.



(** The statements after the title leave the title alone. *)
Lemma handleData_from_artist_keeps_title (fuel : nat) (data : jsval) (page : Page) :
  keeps (λ st, title host (songInfo host st))
    (handleData_from_artist host fuel data page).
Proof.
  unfold handleData_from_artist. keeps_steps.
  intros st st' r [= <- _]. reflexivity.
Qed.

End trigger_facts.




(** C6: a payload that [JSON.parse] rejects ends [handleData] at its first
    statement.  The handler's promise is rejected with the SyntaxError, which
    the process-wide handler logs; [songInfo], the callbacks, the messages
    sent and the calls made to callbacks are all as before, and the process
    goes on. *)
Theorem malformed_payload_changes_nothing
    (host : Host) (fuel : nat) (text : string) (page : Page) (p : Process host) :
  JSON_parse host text = None →
  handleData host fuel text page (provider host p)
  = Some (provider host p, Err SyntaxError)
  ∧ run_handler host (on_song_info_request host fuel text page) p
    = Some {| provider := provider host p;
              logged := logged host p ++ [SyntaxError] |}.
Proof.
  intros Hparse.
  assert (handleData host fuel text page (provider host p)
          = Some (provider host p, Err SyntaxError)) as Hdata.
  { unfold handleData, eff_bind, lift, parse. by rewrite Hparse. }
  split; [done|].
  unfold run_handler, on_song_info_request, eff_bind. by rewrite Hdata.
Qed.

Lemma malformed_payload_changes_nothing_witness :
  JSON_parse Samples.host "{" = None
  ∧ run_handler Samples.host
      (on_song_info_request Samples.host 2 "{" Samples.page)
      {| provider := Samples.started; logged := [] |}
    = Some {| provider := Samples.started; logged := [SyntaxError] |}.
Proof.
  assert (JSON_parse Samples.host "{" = None) as H by reflexivity.
  split; [exact H|].
  exact (proj2 (malformed_payload_changes_nothing Samples.host 2 "{" Samples.page
                  {| provider := Samples.started; logged := [] |} H)).
Defined.

(** A payload without a title, handled to the end: the snapshot sent and
    handed to the callbacks has [undefined] as its title. *)
Example missing_title_is_published :
  ∃ st' : State Samples.host,
    on_song_info_request Samples.host 2 (Samples.payload_text false)
      Samples.page Samples.started = Some (st', Ok ())
    ∧ title Samples.host (songInfo Samples.host st') = VUndefined
    ∧ artist Samples.host (songInfo Samples.host st') = VStr "Band"
    ∧ List.length (sent Samples.host st') = 1%nat
    ∧ List.length (delivered Samples.host st') = 2%nat.
Proof. eexists. repeat split. Qed.

Lemma cleanupName_falsy (w : jsval) : truthy w = false → cleanupName w = Ok w.
Proof. intros Hw. unfold cleanupName. by rewrite Hw. Qed.

Lemma nullish_falsy (w : jsval) : nullish w = true → truthy w = false.
Proof. by destruct w. Qed.

(** C10: [cleanupName] hands back a falsy argument, so [undefined], [null]
    and the empty string, without raising.  For a payload whose
    [videoDetails.title] is missing or [null], [handleData] stores that value
    as the title and goes on with the artist; whatever happens later, the
    title stays that value. *)
Theorem cleanupName_passes_nullish
    (host : Host) (fuel : nat) (text : string) (page : Page) (data : jsval)
    (st : State host) :
  JSON_parse host text = Some data →
  nullish (data ?. "videoDetails" ?. "title") = true →
  let v := data ?. "videoDetails" ?. "title" in
  cleanupName v = Ok v
  ∧ handleData host fuel text page st
    = handleData_from_artist host fuel data page
        (with_songInfo host (set_title host v) st)
  ∧ (∀ st' r, handleData host fuel text page st = Some (st', r) →
              title host (songInfo host st') = v)
  ∧ cleanupName VUndefined = Ok VUndefined
  ∧ cleanupName VNull = Ok VNull
  ∧ cleanupName (VStr EmptyString) = Ok (VStr EmptyString)
  ∧ ∀ w, truthy w = false → cleanupName w = Ok w.
Proof.
  intros Hparse Hnull v.
  assert (cleanupName v = Ok v) as Hclean.
  { by apply cleanupName_falsy, nullish_falsy. }
  assert (handleData host fuel text page st
          = handleData_from_artist host fuel data page
              (with_songInfo host (set_title host v) st)) as Hdata.
  { unfold handleData, eff_bind at 1 2 3, lift, parse, assign.
    rewrite Hparse. fold v. by rewrite Hclean. }
  split; [done|]. split; [done|]. split.
  - intros st' r. rewrite Hdata. intros Hrest.
    by rewrite (handleData_from_artist_keeps_title host fuel data page _ _ _ Hrest).
  - repeat split. apply cleanupName_falsy.
Qed.

Lemma cleanupName_passes_nullish_witness :
  JSON_parse Samples.host (Samples.payload_text false) = Some (Samples.payload_data false)
  ∧ nullish (Samples.payload_data false ?. "videoDetails" ?. "title") = true
  ∧ cleanupName (Samples.payload_data false ?. "videoDetails" ?. "title")
    = Ok (Samples.payload_data false ?. "videoDetails" ?. "title").
Proof.
  assert (JSON_parse Samples.host (Samples.payload_text false)
          = Some (Samples.payload_data false)) as H1 by reflexivity.
  assert (nullish (Samples.payload_data false ?. "videoDetails" ?. "title") = true)
    as H2 by reflexivity.
  split; [exact H1|]. split; [exact H2|].
  exact (proj1 (cleanupName_passes_nullish Samples.host 2 (Samples.payload_text false)
                  Samples.page (Samples.payload_data false) Samples.started H1 H2)).
Defined.

(** ** Further properties of the resolver and of the CSP listener *)

(** X1: the resolver calls every listener it is given, once each and in
    registration order, whatever the listeners answer. *)
Theorem resolver_calls_every_listener (ls : list WebRequest.applier) :
  WebRequest.invoked ls = map WebRequest.lid ls.
Proof. apply invoked_all. Qed.

(** X2: with two listeners or more, the object delivered is the answer of
    the listener registered last and nothing else: no property of an earlier
    answer, and no [cancel] unless that listener sets it. *)
Theorem resolver_delivers_last_answer
    (first : WebRequest.applier) (ls : list WebRequest.applier)
    (last : WebRequest.applier) :
  WebRequest.resolved (first :: ls ++ [last]) = WebRequest.lresult last.
Proof. by apply (resolved_last (first :: ls) last). Qed.

Section csp_facts.
Import WebRequest.

Lemma csp_listener_clears (d : details) :
  responseHeaders (fst (csp_listener d)) !! "content-security-policy-report-only" = None
  ∧ responseHeaders (fst (csp_listener d)) !! "content-security-policy" = None.
Proof.
  unfold csp_listener, truthy_header.
  destruct (responseHeaders d !! "content-security-policy-report-only") eqn:Hro;
    destruct (responseHeaders d !! "content-security-policy") eqn:Hcsp;
    cbn [negb andb fst responseHeaders];
    rewrite ?lookup_delete_eq, ?lookup_delete_ne, ?lookup_delete_eq by done;
    done.
Qed.

End csp_facts.

(** X3: the CSP listener leaves the [details] object without either policy
    header, so a second pass over the same object finds nothing to remove,
    changes nothing and answers [{cancel: false}]. *)
Theorem csp_listener_second_pass (d : WebRequest.details) :
  WebRequest.csp_listener (fst (WebRequest.csp_listener d))
  = (fst (WebRequest.csp_listener d), {[ "cancel" := WebRequest.FBool false ]}).
Proof.
  destruct (csp_listener_clears d) as [Hro Hcsp].
  unfold WebRequest.csp_listener at 1. unfold WebRequest.truthy_header.
  by rewrite Hro, Hcsp.
Qed.

(** ** Further properties of the song-info provider *)

Section includes_facts.
Import JsString.

(** [includes] decides "occurs somewhere in". *)
Lemma includes_iff (s p : string) :
  includes s p = true ↔ ∃ pre rest, s = pre +:+ p +:+ rest.
Proof.
  split.
  - intros H. destruct (includes_lastIndexOf s p H) as (pre & rest & Hs & _). eauto.
  - intros (pre & rest & ->). unfold includes. apply existsb_exists.
    exists (List.length (units pre)). split.
    + apply in_seq. rewrite !units_app, !length_app. lia.
    + rewrite !units_app. apply matches_at_app.
Qed.

(** Without an occurrence, [lastIndexOf] is -1. *)
Lemma lastIndexOf_absent (s p : string) :
  includes s p = false → lastIndexOf s p = -1.
Proof.
  unfold includes, lastIndexOf. intros Hno.
  destruct (List.find _ _) as [k|] eqn:Hfind; [|done]. exfalso.
  apply find_downwards in Hfind as (Hk & Hlt & _).
  assert (existsb (matches_at (units s) (units p)) (seq 0 (S (List.length (units s))))
          = true) as Hyes.
  { apply existsb_exists. exists k. split; [apply in_seq; lia | done]. }
  congruence.
Qed.

End includes_facts.

(** X4: the provider takes the player for paused exactly when the page title
    has no ["-"] anywhere. *)
Theorem getPausedStatus_iff_no_dash (page : Page) :
  getPausedStatus page = false
  ↔ ∃ before after, document_title page = before +:+ "-" +:+ after.
Proof.
  unfold getPausedStatus. rewrite negb_false_iff. apply includes_iff.
Qed.

Section title_update_facts.
Variable host : Host.

(** The handler of ["page-title-updated"], statement by statement. *)
Lemma on_page_title_updated_run (page : Page) (st : State host) :
  on_page_title_updated host page st
  = let st1 := with_songInfo host (set_isPaused host (VBool (getPausedStatus page))) st in
    match progress_value page with
    | Ok elapsed =>
        let st2 := with_songInfo host (set_elapsedSeconds host elapsed) st1 in
        Some ({| songInfo := songInfo host st2; callbacks := callbacks host st;
                 sent := sent host st;
                 delivered := delivered host st
                              ++ map (λ c, (c, songInfo host st2)) (callbacks host st);
                 fetched := fetched host st |}, Ok ())
    | Err e => Some (st1, Err e)
    end.
Proof.
  unfold on_page_title_updated, eff_bind, assign, lift, getProgress, notify.
  by destruct (progress_value page).
Qed.

Lemma registerCallbacks_callbacks (cs : list nat) (st : State host) :
  callbacks host (registerCallbacks host cs st) = callbacks host st ++ cs
  ∧ songInfo host (registerCallbacks host cs st) = songInfo host st
  ∧ sent host (registerCallbacks host cs st) = sent host st
  ∧ delivered host (registerCallbacks host cs st) = delivered host st.
Proof.
  unfold registerCallbacks. revert st.
  induction cs as [|c cs IH]; intros st; simpl.
  - by rewrite app_nil_r.
  - destruct (IH (registerCallback host c st)) as (-> & -> & -> & ->).
    simpl. by rewrite <- app_assoc.
Qed.

End title_update_facts.

(** X5: a change of the page title always ends with an outcome; it writes
    [isPaused], and [elapsedSeconds] when the progress script answers, and
    leaves every other property of [songInfo], the registered callbacks and
    the messages sent as they were. *)
Theorem title_update_writes_two_fields (host : Host) (page : Page) (st : State host) :
  ∃ st' r,
    on_page_title_updated host page st = Some (st', r)
    ∧ isPaused host (songInfo host st') = VBool (getPausedStatus page)
    ∧ title host (songInfo host st') = title host (songInfo host st)
    ∧ artist host (songInfo host st') = artist host (songInfo host st)
    ∧ views host (songInfo host st') = views host (songInfo host st)
    ∧ uploadDate host (songInfo host st') = uploadDate host (songInfo host st)
    ∧ imageSrc host (songInfo host st') = imageSrc host (songInfo host st)
    ∧ image_ host (songInfo host st') = image_ host (songInfo host st)
    ∧ songDuration host (songInfo host st') = songDuration host (songInfo host st)
    ∧ url host (songInfo host st') = url host (songInfo host st)
    ∧ callbacks host st' = callbacks host st
    ∧ sent host st' = sent host st
    ∧ elapsedSeconds host (songInfo host st')
      = match progress_value page with
        | Ok elapsed => elapsed
        | Err _ => elapsedSeconds host (songInfo host st)
        end.
Proof.
  rewrite on_page_title_updated_run. cbn zeta.
  destruct (progress_value page) as [elapsed|e]; eexists _, _; (split; [done|]);
    repeat split.
Qed.

(** X6: when the progress script throws, the title handler is rejected with
    that error after [isPaused] has been written: no callback is called,
    although the content of [songInfo] has changed. *)
Theorem title_update_rejected_progress
    (host : Host) (page : Page) (st : State host) (e : error) :
  progress_value page = Err e →
  ∃ st',
    on_page_title_updated host page st = Some (st', Err e)
    ∧ delivered host st' = delivered host st
    ∧ isPaused host (songInfo host st') = VBool (getPausedStatus page)
    ∧ elapsedSeconds host (songInfo host st') = elapsedSeconds host (songInfo host st).
Proof.
  intros Hprogress. rewrite on_page_title_updated_run, Hprogress. cbn zeta.
  eexists. repeat split.
Qed.

Lemma title_update_rejected_progress_witness :
  progress_value MoreSamples.page_without_progress = Err ScriptError
  ∧ ∃ st',
      on_page_title_updated MoreSamples.host MoreSamples.page_without_progress
        MoreSamples.started = Some (st', Err ScriptError)
      ∧ delivered MoreSamples.host st' = [].
Proof.
  assert (progress_value MoreSamples.page_without_progress = Err ScriptError) as H
    by reflexivity.
  split; [exact H|].
  destruct (title_update_rejected_progress MoreSamples.host
              MoreSamples.page_without_progress MoreSamples.started ScriptError H)
    as (st' & Hrun & Hdel & _).
  exists st'. split; [exact Hrun | exact Hdel].
Defined.

(** X7: callbacks registered one after the other are all called by a
    publication, once each and in registration order, after the callbacks
    registered before them, and all with the same content of [songInfo]. *)
Theorem callbacks_fan_out
    (host : Host) (page : Page) (cs : list nat) (st : State host) (elapsed : jsval) :
  progress_value page = Ok elapsed →
  ∃ st',
    on_page_title_updated host page (registerCallbacks host cs st) = Some (st', Ok ())
    ∧ delivered host st'
      = delivered host st
        ++ map (λ c, (c, songInfo host st')) (callbacks host st ++ cs)
    ∧ callbacks host st' = callbacks host st ++ cs.
Proof.
  intros Hprogress. rewrite on_page_title_updated_run, Hprogress. cbn zeta.
  destruct (registerCallbacks_callbacks host cs st) as (Hcb & Hinfo & Hsent & Hdel).
  eexists. split; [done|]. cbn [delivered callbacks songInfo].
  by rewrite Hcb, Hdel.
Qed.

Lemma callbacks_fan_out_witness :
  progress_value Samples.page = Ok (VNum 42)
  ∧ ∃ st',
      on_page_title_updated Samples.host Samples.page
        (registerCallbacks Samples.host [3; 4]%nat Samples.started) = Some (st', Ok ())
      ∧ delivered Samples.host st'
        = map (λ c, (c, songInfo Samples.host st')) [1; 2; 3; 4]%nat.
Proof.
  assert (progress_value Samples.page = Ok (VNum 42)) as H by reflexivity.
  split; [exact H|].
  destruct (callbacks_fan_out Samples.host Samples.page [3; 4]%nat Samples.started
              (VNum 42) H) as (st' & Hrun & Hdel & _).
  exists st'. split; [exact Hrun | exact Hdel].
Defined.

Section handleData_facts.
Variable host : Host.

Lemma lift_Ok {A} (r : result A) (st st' : State host) (a : A) :
  lift r st = Some (st', Ok a) → st' = st ∧ r = Ok a.
Proof. by intros [= <- ->]. Qed.

Lemma assign_Ok f (st st' : State host) (u : unit) :
  assign f st = Some (st', Ok u) → st' = with_songInfo host f st.
Proof. by intros [= <-]. Qed.

(** What [handleData] has done when it completes. *)
Lemma handleData_Ok_inv (fuel : nat) (text : string) (page : Page) (st st' : State host) :
  handleData host fuel text page st = Some (st', Ok ()) →
  ∃ data t dom a src sources img,
    JSON_parse host text = Some data
    ∧ cleanupName (data ?. "videoDetails" ?. "title") = Ok t
    ∧ subtitle_text page = Ok dom
    ∧ (if truthy dom then a = dom
       else cleanupName (data ?. "videoDetails" ?. "author") = Ok a)
    ∧ pop_url (data ?. "videoDetails" ?. "thumbnail" ?. "thumbnails") = Ok src
    ∧ getImage host fuel src = Some (sources, Ok img)
    ∧ songInfo host st'
      = {| title := t; artist := a;
           views := data ?. "videoDetails" ?. "viewCount";
           uploadDate := data ?. "microformat" ?. "microformatDataRenderer" ?. "uploadDate";
           imageSrc := src; image_ := Some img;
           isPaused := isPaused host (songInfo host st);
           songDuration := data ?. "videoDetails" ?. "lengthSeconds";
           elapsedSeconds := elapsedSeconds host (songInfo host st);
           url := data ?. "microformat" ?. "microformatDataRenderer" ?. "urlCanonical" |}
    ∧ fetched host st' = fetched host st ++ sources.
Proof.
  unfold handleData, handleData_from_artist. intros H.
  apply eff_bind_Ok in H as (s1 & data & Hparse & H).
  apply lift_Ok in Hparse as [-> Hparse].
  apply eff_bind_Ok in H as (s2 & t & Htitle & H).
  apply lift_Ok in Htitle as [-> Htitle].
  apply eff_bind_Ok in H as (s3 & u3 & Hset & H). apply assign_Ok in Hset as ->.
  apply eff_bind_Ok in H as (s4 & dom & Hdom & H).
  apply lift_Ok in Hdom as [-> Hdom].
  apply eff_bind_Ok in H as (s5 & a & Hartist & H).
  assert (s5 = with_songInfo host (set_title host t) st
          ∧ if truthy dom then a = dom
            else cleanupName (data ?. "videoDetails" ?. "author") = Ok a)
    as [-> Hart].
  { destruct (truthy dom).
    - by injection Hartist as <- <-.
    - by apply lift_Ok in Hartist as [-> ?]. }
  clear Hartist.
  apply eff_bind_Ok in H as (s6 & u6 & Hset & H). apply assign_Ok in Hset as ->.
  apply eff_bind_Ok in H as (s7 & u7 & Hset & H). apply assign_Ok in Hset as ->.
  apply eff_bind_Ok in H as (s8 & src & Hsrc & H).
  apply lift_Ok in Hsrc as [-> Hsrc].
  apply eff_bind_Ok in H as (s9 & u9 & Hset & H). apply assign_Ok in Hset as ->.
  apply eff_bind_Ok in H as (s10 & u10 & Hset & H). apply assign_Ok in Hset as ->.
  apply eff_bind_Ok in H as (s11 & img & Himg & H).
  apply eff_bind_Ok in H as (s12 & u12 & Hset & H). apply assign_Ok in Hset as ->.
  apply eff_bind_Ok in H as (s13 & u13 & Hset & H). apply assign_Ok in Hset as ->.
  apply eff_bind_Ok in H as (s14 & u14 & Hset & H). apply assign_Ok in Hset as ->.
  injection H as <-.
  unfold await_getImage in Himg. cbn [songInfo with_songInfo imageSrc set_imageSrc
    set_songDuration] in Himg.
  destruct (getImage host fuel src) as [[sources r]|] eqn:Hget; [|done].
  injection Himg as <- ->.
  unfold parse in Hparse. destruct (JSON_parse host text) as [data'|]; [|done].
  injection Hparse as ->.
  exists data, t, dom, a, src, sources, img.
  repeat split; done.
Qed.

End handleData_facts.

(** X8: when [handleData] completes, the artist is the text of the subtitle
    element whenever that text is truthy, and the author of the payload is
    then not looked at; otherwise it is the cleaned author of the payload. *)
Theorem handleData_artist_choice
    (host : Host) (fuel : nat) (text : string) (page : Page) (st st' : State host) :
  handleData host fuel text page st = Some (st', Ok ()) →
  ∃ data dom,
    JSON_parse host text = Some data
    ∧ subtitle_text page = Ok dom
    ∧ if truthy dom then artist host (songInfo host st') = dom
      else cleanupName (data ?. "videoDetails" ?. "author")
           = Ok (artist host (songInfo host st')).
Proof.
  intros H.
  apply handleData_Ok_inv in H
    as (data & t & dom & a & src & sources & img & Hparse & _ & Hdom & Ha & _ & _ & Hinfo & _).
  exists data, dom. rewrite Hinfo. cbn [artist]. repeat split; [done..|].
  destruct (truthy dom); done.
Qed.

Lemma handleData_artist_choice_witness :
  ∃ st' : State Samples.host,
    handleData Samples.host 2 (Samples.payload_text true) MoreSamples.page_with_artist
      Samples.started = Some (st', Ok ())
    ∧ ∃ data dom,
        JSON_parse Samples.host (Samples.payload_text true) = Some data
        ∧ subtitle_text MoreSamples.page_with_artist = Ok dom
        ∧ if truthy dom then artist Samples.host (songInfo Samples.host st') = dom
          else cleanupName (data ?. "videoDetails" ?. "author")
               = Ok (artist Samples.host (songInfo Samples.host st')).
Proof.
  eexists. split; [reflexivity|].
  exact (handleData_artist_choice Samples.host 2 (Samples.payload_text true)
           MoreSamples.page_with_artist Samples.started _ eq_refl).
Defined.

(** X9: when [handleData] completes, the title is the cleaned title of the
    payload; views, duration, upload date and address are the values the
    payload holds under their keys, [undefined] where a key is missing; the
    image source is the address of the last thumbnail; the image is what
    [getImage] made of that source; [isPaused] and [elapsedSeconds] are as they
    were. *)
Theorem handleData_snapshot_fields
    (host : Host) (fuel : nat) (text : string) (page : Page) (st st' : State host) :
  handleData host fuel text page st = Some (st', Ok ()) →
  ∃ data sources img,
    JSON_parse host text = Some data
    ∧ cleanupName (data ?. "videoDetails" ?. "title")
      = Ok (title host (songInfo host st'))
    ∧ views host (songInfo host st') = data ?. "videoDetails" ?. "viewCount"
    ∧ songDuration host (songInfo host st') = data ?. "videoDetails" ?. "lengthSeconds"
    ∧ uploadDate host (songInfo host st')
      = data ?. "microformat" ?. "microformatDataRenderer" ?. "uploadDate"
    ∧ url host (songInfo host st')
      = data ?. "microformat" ?. "microformatDataRenderer" ?. "urlCanonical"
    ∧ pop_url (data ?. "videoDetails" ?. "thumbnail" ?. "thumbnails")
      = Ok (imageSrc host (songInfo host st'))
    ∧ getImage host fuel (imageSrc host (songInfo host st')) = Some (sources, Ok img)
    ∧ image_ host (songInfo host st') = Some img
    ∧ fetched host st' = fetched host st ++ sources
    ∧ isPaused host (songInfo host st') = isPaused host (songInfo host st)
    ∧ elapsedSeconds host (songInfo host st') = elapsedSeconds host (songInfo host st).
Proof.
  intros H.
  apply handleData_Ok_inv in H
    as (data & t & dom & a & src & sources & img
        & Hparse & Ht & _ & _ & Hsrc & Hget & Hinfo & Hfetched).
  exists data, sources, img. rewrite Hinfo.
  cbn [title views songDuration uploadDate url imageSrc image_ isPaused elapsedSeconds].
  repeat split; done.
Qed.

Lemma handleData_snapshot_fields_witness :
  ∃ st' : State Samples.host,
    handleData Samples.host 2 (Samples.payload_text true) Samples.page
      Samples.started = Some (st', Ok ())
    ∧ title Samples.host (songInfo Samples.host st') = VStr "Song"
    ∧ artist Samples.host (songInfo Samples.host st') = VStr "Band"
    ∧ songDuration Samples.host (songInfo Samples.host st') = VNum 180
    ∧ ∃ data sources img,
        JSON_parse Samples.host (Samples.payload_text true) = Some data
        ∧ cleanupName (data ?. "videoDetails" ?. "title")
          = Ok (title Samples.host (songInfo Samples.host st'))
        ∧ getImage Samples.host 2 (imageSrc Samples.host (songInfo Samples.host st'))
          = Some (sources, Ok img).
Proof.
  eexists. split; [reflexivity|]. repeat (split; [reflexivity|]).
  destruct (handleData_snapshot_fields Samples.host 2 (Samples.payload_text true)
              Samples.page Samples.started _ eq_refl)
    as (data & sources & img & H1 & H2 & _ & _ & _ & _ & _ & H3 & _).
  exists data, sources, img. split; [exact H1|]. split; [exact H2 | exact H3].
Defined.

Section split_facts.
Variable host : Host.


End split_facts.



(** X11: [cleanupName] throws exactly for a truthy argument that is not a
    string (a number other than 0, [true], an array, an object), and the
    error is a TypeError.  A payload with such a title makes [handleData]
    reject before it has written anything: the whole state is as before,
    nothing is sent and no callback is called. *)
Theorem handleData_title_type_error
    (host : Host) (fuel : nat) (text : string) (page : Page) (data : jsval)
    (st : State host) (e : error) :
  JSON_parse host text = Some data →
  cleanupName (data ?. "videoDetails" ?. "title") = Err e →
  e = TypeError
  ∧ truthy (data ?. "videoDetails" ?. "title") = true
  ∧ (∀ s, data ?. "videoDetails" ?. "title" ≠ VStr s)
  ∧ handleData host fuel text page st = Some (st, Err TypeError)
  ∧ on_song_info_request host fuel text page st = Some (st, Err TypeError)
  ∧ (∀ v, truthy v = true → (∀ s, v ≠ VStr s) → cleanupName v = Err TypeError).
Proof.
  intros Hparse Hclean.
  assert (e = TypeError ∧ truthy (data ?. "videoDetails" ?. "title") = true
          ∧ ∀ s, data ?. "videoDetails" ?. "title" ≠ VStr s) as (-> & Htruthy & Hnot).
  { unfold cleanupName in Hclean.
    destruct (truthy (data ?. "videoDetails" ?. "title")) eqn:Ht; [|done].
    simpl in Hclean.
    destruct (data ?. "videoDetails" ?. "title"); try done;
      injection Hclean as <-; repeat split; done. }
  assert (handleData host fuel text page st = Some (st, Err TypeError)) as Hdata.
  { unfold handleData, eff_bind at 1 2, lift, parse. by rewrite Hparse, Hclean. }
  repeat split; try done.
  - unfold on_song_info_request, eff_bind. by rewrite Hdata.
  - intros v Hv Hs. unfold cleanupName. rewrite Hv. simpl.
    destruct v; try done. by destruct (Hs s).
Qed.

Lemma handleData_title_type_error_witness :
  JSON_parse MoreSamples.host MoreSamples.numeric_title_text
  = Some MoreSamples.numeric_title_data
  ∧ cleanupName (MoreSamples.numeric_title_data ?. "videoDetails" ?. "title")
    = Err TypeError
  ∧ on_song_info_request MoreSamples.host 2 MoreSamples.numeric_title_text
      Samples.page MoreSamples.started
    = Some (MoreSamples.started, Err TypeError).
Proof.
  assert (JSON_parse MoreSamples.host MoreSamples.numeric_title_text
          = Some MoreSamples.numeric_title_data) as H1 by reflexivity.
  assert (cleanupName (MoreSamples.numeric_title_data ?. "videoDetails" ?. "title")
          = Err TypeError) as H2 by reflexivity.
  split; [exact H1|]. split; [exact H2|].
  destruct (handleData_title_type_error MoreSamples.host 2
              MoreSamples.numeric_title_text Samples.page
              MoreSamples.numeric_title_data MoreSamples.started TypeError H1 H2)
    as (_ & _ & _ & _ & Hrun & _).
  exact Hrun.
Defined.

(** ** The order of the suffix list *)

Section suffix_order_facts.
Import JsString.

(** No suffix of the list ends with another one. *)
Lemma suffixes_unrelated (x y : string) :
  x ∈ suffixesToRemove → y ∈ suffixesToRemove → endsWith y x = true → x = y.
Proof.
  intros Hx Hy.
  assert (forallb (λ x, forallb (λ y, implb (endsWith y x) (bool_decide (x = y)))
                          suffixesToRemove) suffixesToRemove = true) as Hall
    by (vm_compute; reflexivity).
  rewrite forallb_forall in Hall. apply list_elem_of_In in Hx, Hy.
  specialize (Hall x Hx). rewrite forallb_forall in Hall. specialize (Hall y Hy).
  intros Hends. rewrite Hends in Hall. simpl in Hall.
  by apply bool_decide_eq_true in Hall.
Qed.

(** A name ends with at most one suffix of the list. *)
Lemma at_most_one_suffix (s x y : string) :
  x ∈ suffixesToRemove → y ∈ suffixesToRemove →
  endsWith s x = true → endsWith s y = true → x = y.
Proof.
  intros Hx Hy Hsx Hsy. apply endsWith_suffix in Hsx, Hsy.
  destruct (suffix_weak_total _ _ _ Hsx Hsy) as [Hxy|Hyx].
  - apply suffixes_unrelated; [done..|]. by apply endsWith_suffix.
  - symmetry. apply suffixes_unrelated; [done..|]. by apply endsWith_suffix.
Qed.

(** The loop over any list drawn from the suffixes of the program. *)
Lemma cleanup_loop_the_match (s x : string) (l : list string) :
  l ⊆ suffixesToRemove → x ∈ l → endsWith s x = true →
  cleanup_loop s l = slice0 s (- JsString.length x).
Proof.
  induction l as [|h l IH]; intros Hsub Hx Hends.
  - by apply elem_of_nil in Hx.
  - simpl. destruct (endsWith s h) eqn:Hh.
    + rewrite (at_most_one_suffix s h x); [done | | | done..].
      * apply Hsub. by left.
      * apply Hsub, Hx.
    + apply elem_of_cons in Hx as [->|Hx]; [congruence|].
      apply IH; [|done..]. intros z Hz. apply Hsub. by right.
Qed.

Lemma cleanup_loop_no_match (s : string) (l : list string) :
  (∀ x, x ∈ l → endsWith s x = false) → cleanup_loop s l = s.
Proof.
  induction l as [|h l IH]; intros Hnone; [done|]. simpl.
  rewrite (Hnone h) by by left. apply IH. intros x Hx. apply Hnone. by right.
Qed.

End suffix_order_facts.

(** X12: a name ends with at most one of the listed suffixes, so the order
    of the list has no influence: the loop of [cleanupName] over any
    rearrangement of the list gives the same name. *)
Theorem cleanup_order_irrelevant (s : string) (suffixes : list string) :
  suffixes ≡ₚ suffixesToRemove →
  cleanup_loop s suffixes = cleanup_loop s suffixesToRemove
  ∧ ∀ x y, x ∈ suffixesToRemove → y ∈ suffixesToRemove →
           JsString.endsWith s x = true → JsString.endsWith s y = true → x = y.
Proof.
  intros Hperm. split; [|apply at_most_one_suffix].
  destruct (cleanup_loop_cases s suffixesToRemove suffixes_nonempty)
    as [(before & x & after & pre & Hl & _ & Hs & _)|[Hnone _]].
  - assert (x ∈ suffixesToRemove) as Hx by (rewrite Hl; set_solver).
    assert (JsString.endsWith s x = true) as Hends by (apply endsWith_app; eauto).
    rewrite (cleanup_loop_the_match s x suffixes); [| |by rewrite Hperm|done].
    + by rewrite (cleanup_loop_the_match s x suffixesToRemove).
    + intros z Hz. by rewrite <- Hperm.
  - rewrite Forall_forall in Hnone.
    rewrite (cleanup_loop_no_match s suffixes).
    + by rewrite (cleanup_loop_no_match s suffixesToRemove).
    + intros z Hz. apply Hnone. by rewrite <- Hperm.
Qed.

Lemma cleanup_order_irrelevant_witness :
  reverse suffixesToRemove ≡ₚ suffixesToRemove
  ∧ cleanup_loop "Song (Official Video)" (reverse suffixesToRemove)
    = cleanup_loop "Song (Official Video)" suffixesToRemove.
Proof.
  assert (reverse suffixesToRemove ≡ₚ suffixesToRemove) as H
    by apply reverse_Permutation.
  split; [exact H|].
  exact (proj1 (cleanup_order_irrelevant "Song (Official Video)"
                  (reverse suffixesToRemove) H)).
Defined.

(** ** The application shell *)

Section shell_facts.
Import App.

Lemma startsWith_iff (s p : string) :
  startsWith s p = true ↔ ∃ rest, s = p +:+ rest.
Proof.
  unfold startsWith, JsString.matches_at. rewrite bool_decide_eq_true, drop_0.
  split.
  - intros Hp. exists (JsString.of_units (drop (List.length (JsString.units p))
                                            (JsString.units s))).
    apply units_inj. rewrite units_app, units_of_units.
    rewrite <- Hp at 1. by rewrite take_drop.
  - intros [rest ->]. by rewrite units_app, take_app_length.
Qed.

Lemma navigate_snoc (urls : list string) (url : string) (sets : config_sets) :
  navigate (urls ++ [url]) sets = on_did_navigate_in_page url (navigate urls sets).
Proof. unfold navigate. by rewrite fold_left_app. Qed.

Lemma navigate_filter (urls : list string) (sets : config_sets) :
  navigate urls sets
  = sets ++ map (λ u, ("url", VStr u))
              (List.filter (λ u, startsWith u "https://music.youtube.com") urls).
Proof.
  revert sets. induction urls as [|u urls IH]; intros sets.
  - simpl. by rewrite app_nil_r.
  - unfold navigate in *. cbn [fold_left List.filter]. rewrite IH.
    unfold on_did_navigate_in_page.
    destruct (startsWith u "https://music.youtube.com"); [|done].
    simpl. by rewrite <- app_assoc.
Qed.

Lemma run_window_events_app hide (evs1 evs2 : list window_event) (st : Closing) :
  run_window_events hide (evs1 ++ evs2) st
  = run_window_events hide evs2 (run_window_events hide evs1 st).
Proof. unfold run_window_events. by rewrite fold_left_app. Qed.

(** Once [forceQuit] is set it stays set, and no ["close"] is prevented. *)
Lemma run_window_events_forced hide (evs : list window_event) (st : Closing) :
  forceQuit st = true →
  forceQuit (run_window_events hide evs st) = true
  ∧ prevented (run_window_events hide evs st)
    = prevented st ++ repeat false (closes evs).
Proof.
  revert st. induction evs as [|ev evs IH]; intros [force prev] Hforce;
    cbn [forceQuit] in Hforce; subst force.
  - simpl. by rewrite app_nil_r.
  - unfold run_window_events in *. cbn [fold_left].
    destruct ev; cbn [on_window_event forceQuit prevented negb andb].
    + destruct (IH {| forceQuit := true; prevented := prev |} eq_refl) as [-> ->].
      done.
    + rewrite andb_false_r.
      destruct (IH {| forceQuit := true; prevented := prev ++ [false] |} eq_refl)
        as [-> ->].
      cbn [prevented]. unfold closes. cbn [List.filter is_close List.length repeat].
      by rewrite <- app_assoc.
Qed.

(** Before any ["before-quit"], every ["close"] is prevented when the handler
    is installed. *)
Lemma run_window_events_closes (n : nat) (st : Closing) :
  forceQuit st = false →
  forceQuit (run_window_events true (repeat Close n) st) = false
  ∧ prevented (run_window_events true (repeat Close n) st)
    = prevented st ++ repeat true n.
Proof.
  revert st. induction n as [|n IH]; intros [force prev] Hforce;
    cbn [forceQuit] in Hforce; subst force.
  - simpl. by rewrite app_nil_r.
  - unfold run_window_events in *.
    cbn [repeat fold_left on_window_event forceQuit prevented negb andb].
    destruct (IH {| forceQuit := false; prevented := prev ++ [true] |} eq_refl)
      as [-> ->].
    cbn [prevented]. by rewrite <- app_assoc.
Qed.

End shell_facts.

(** X13: in the dialog for an unresponsive window, answer 1 relaunches and,
    the clause having no [break], quits as well; answer 2 quits; every other
    answer does nothing.  So the application is relaunched only together with
    a quit. *)
Theorem unresponsive_response_actions (response : Z) :
  App.on_unresponsive_response response
  = (if response =? 1 then [App.Relaunch; App.Quit]
     else if response =? 2 then [App.Quit]
     else [])
  ∧ (App.Relaunch ∈ App.on_unresponsive_response response ↔ response = 1)
  ∧ (App.Quit ∈ App.on_unresponsive_response response ↔ response = 1 ∨ response = 2).
Proof.
  assert (App.on_unresponsive_response response
          = (if response =? 1 then [App.Relaunch; App.Quit]
             else if response =? 2 then [App.Quit]
             else [])) as Hrun.
  { unfold App.on_unresponsive_response, App.switch. simpl.
    destruct (response =? 1); [done|]. by destruct (response =? 2). }
  rewrite Hrun. clear Hrun. split; [done|].
  destruct (decide (response = 1)) as [E1|H1].
  - subst response. simpl. split; split; intros _; try done.
    + by left.
    + by left.
    + apply elem_of_cons. right. by left.
  - apply Z.eqb_neq in H1 as H1'. rewrite H1'.
    destruct (decide (response = 2)) as [E2|H2].
    + subst response. simpl. split; split; intros H; try done.
      * apply elem_of_cons in H as [H|H]; [done | by apply elem_of_nil in H].
      * by right.
      * by left.
    + apply Z.eqb_neq in H2 as H2'. rewrite H2'.
      split; split; intros H; try (by apply elem_of_nil in H); lia.
Qed.

(** X14: with the ["close"] handler installed, every ["close"] before the
    first ["before-quit"] is prevented (the window is hidden), and after a
    ["before-quit"] no ["close"] is prevented any more, whatever events
    follow. *)
Theorem close_prevented_until_before_quit
    (n : nat) (later : list App.window_event) :
  App.prevented
    (App.run_window_events true (repeat App.Close n ++ App.BeforeQuit :: later) App.ready)
  = repeat true n ++ repeat false (App.closes later).
Proof.
  rewrite run_window_events_app.
  destruct (run_window_events_closes n App.ready eq_refl) as [Hforce Hprev].
  change (App.BeforeQuit :: later) with ([App.BeforeQuit] ++ later).
  rewrite run_window_events_app.
  destruct (run_window_events_forced true later
              (App.run_window_events true [App.BeforeQuit]
                 (App.run_window_events true (repeat App.Close n) App.ready)) eq_refl)
    as [_ ->].
  cbn [App.run_window_events fold_left App.on_window_event App.prevented].
  by rewrite Hprev.
Qed.

(** X15: over any sequence of in-page navigations, [config.set] is called
    with the key ["url"] only, once for each address that starts with
    ["https://music.youtube.com"], in order, and with no other address. *)
Theorem saved_url_is_music_address (urls : list string) (sets : App.config_sets) :
  App.navigate urls sets
  = sets ++ map (λ u, ("url", VStr u))
              (List.filter (λ u, startsWith u "https://music.youtube.com") urls)
  ∧ Forall (λ kv, kv.1 = "url"
                  ∧ ∃ u rest, kv.2 = VStr u
                              ∧ u = "https://music.youtube.com" +:+ rest
                              ∧ u ∈ urls)
      (App.navigate urls []).
Proof.
  split; [apply navigate_filter|].
  rewrite navigate_filter. simpl. apply Forall_forall. intros [k v] Hin.
  apply list_elem_of_In, in_map_iff in Hin as (u & [= <- <-] & Hu).
  apply filter_In in Hu as [Hu Hstart].
  apply startsWith_iff in Hstart as [rest Hrest].
  split; [done|]. exists u, rest. repeat split; [done|]. by apply list_elem_of_In.
Qed.

(** X16: the working directory written into the start-menu shortcut is the
    program location up to, and without, its last path separator.  When the
    location has no separator, [lastIndexOf] is -1 and the slice drops the
    last character of the location instead. *)
Theorem shortcut_cwd_is_directory (sep appLocation : string) :
  if JsString.includes appLocation sep
  then ∃ dir name,
         appLocation = dir +:+ sep +:+ name
         ∧ App.shortcut_cwd sep appLocation = dir
         ∧ ∀ dir' name', appLocation = dir' +:+ sep +:+ name' →
                         JsString.length dir' ≤ JsString.length dir
  else ∀ front c, appLocation = front +:+ String c EmptyString →
                  App.shortcut_cwd sep appLocation = front.
Proof.
  unfold App.shortcut_cwd.
  destruct (JsString.includes appLocation sep) eqn:Hin.
  - destruct (includes_lastIndexOf appLocation sep Hin) as (dir & name & Hs & Hidx & Hlast).
    exists dir, name. repeat split; [done | | done].
    rewrite Hidx. rewrite Hs at 1. apply slice0_prefix.
  - intros front c ->. rewrite lastIndexOf_absent by done.
    change (-1) with (- JsString.length (String c EmptyString)).
    by apply slice0_app_suffix.
Qed.

(** The directory of the sample program location. *)
Example shortcut_cwd_sample :
  App.shortcut_cwd MoreSamples.backslash MoreSamples.program
  = "C:" +:+ MoreSamples.backslash +:+ "Apps".
Proof. reflexivity. Qed.
